(** * make_submission.py: masks to polygons, and the Jaccard log

    A shallow embedding of [src/make_submission.py]: the mask-prediction
    loop of [main], the per-image worker [get_poly_data], the
    pixel-to-annotation rescaling of [get_polygons] and the metric line of
    [log_jaccard].

    Conventions of the model.
    - Python floats (scores, thresholds, coordinates, areas, scale factors)
      are exact rationals [Q]; equalities between computed numbers are
      stated with [==] ([Qeq]).  Rounding is modelled where a result
      depends on it: the threshold that numpy converts to the half floats
      of a saved mask ([np_gt]), and the double arithmetic of a rescaling
      and its inverse ([affinity_scale64]).
    - Python ints are [Z]; array extents are [nat].
    - A dict is a [gmap]; a directory of mask files is a [gmap] from file
      name to array.
    - [logger.info] appends to a log that is threaded through the code; a
      raised exception ends the computation and keeps the log written so
      far. *)

From Stdlib Require Import QArith Qabs Qfield Lqa Qround Qpower.
From Stdlib Require Import DecimalString DecimalZ DecimalPos.
From stdpp Require Import gmap strings list fin_maps sorting.

Local Open Scope Z_scope.

(** ** Exceptions, log lines and the logging monad *)

Inductive exn : Type :=
  | KeyError (key : Z)          (* d[k] on a dict without k *)
  | ZeroDivisionError           (* 1 / 0.0 *)
  | AssertionError              (* a failed assert *)
  | NotFound (im_id : string)   (* the scaler has no size metadata *)
  | WKTReadingError (s : string)(* shapely.wkt.loads on a malformed text *)
  | PredictError (im_id : string). (* image loading or the model failed *)

Inductive log_line : Type :=
  | Info (msg : string)
  | InfoJaccard (polygon_jaccard mask_jaccard : Q).

Inductive result (A : Type) : Type :=
  | Ok (a : A)
  | Raise (e : exn).
Arguments Ok {A} a.
Arguments Raise {A} e.

(** A computation yields the lines it logged and how it ended. *)
Definition M (A : Type) : Type := (list log_line * result A)%type.

Definition raise {A} (e : exn) : M A := ([], Raise e).
Definition logger_info (l : log_line) : M unit := ([l], Ok tt).

#[global] Instance M_ret : MRet M := λ A a, ([], Ok a).
#[global] Instance M_bind : MBind M := λ A B k m,
  match m with
  | (w, Ok a) => let '(w', r) := k a in (w ++ w', r)
  | (w, Raise e) => (w, Raise e)
  end.

Definition lift_option {A} (e : exn) (o : option A) : M A :=
  match o with Some a => mret a | None => raise e end.

(** ** Binary floating point

    The values of an IEEE 754 binary format and the rounding of a real
    number to the nearest of them, ties to even, on exact rationals.  The
    two zeros are one value, [Fin 0]. *)

Definition pow2 (e : Z) : Q := (2 ^ e)%Q.

(** The exponent [e] with [2^e <= q < 2^(e+1)], for [q > 0]. *)
Definition ilog2 (q : Q) : Z :=
  let e := Z.log2 (Qnum q) - Z.log2 (Zpos (Qden q)) in
  if Qle_bool (pow2 e) q then e else e - 1.

(** The nearest integer, a tie going to the even one. *)
Definition round_half_even (x : Q) : Z :=
  let f := Qfloor x in
  match (x - inject_Z f ?= 1 # 2)%Q with
  | Lt => f
  | Gt => f + 1
  | Eq => if Z.even f then f else f + 1
  end.

(** A format: the bits of the significand (the hidden one included), and
    the least and greatest exponent of a normal value. *)
Record format : Type := mkFormat { prec : Z; emin : Z; emax : Z }.

(** [np.float16] and Python's [float]. *)
Definition binary16 : format := mkFormat 11 (-14) 15.
Definition binary64 : format := mkFormat 53 (-1022) 1023.

Inductive fval : Type :=
  | Fin (q : Q)
  | PInf
  | NInf
  | NaN.

(** Rounding of [q > 0]: to a multiple of the spacing of the values around
    [q], which below [2^emin] is the spacing of the subnormal values. *)
Definition round_pos (fmt : format) (q : Q) : Q :=
  let e := Z.max (ilog2 q) (emin fmt) in
  let u := pow2 (e - (prec fmt - 1)) in
  Qred (inject_Z (round_half_even (q / u)) * u).

(** Rounding to the format; what rounds to [2^(emax+1)] overflows. *)
Definition round (fmt : format) (q : Q) : fval :=
  match (q ?= 0)%Q with
  | Eq => Fin 0
  | Gt => let r := round_pos fmt q in
          if Qle_bool (pow2 (emax fmt + 1)) r then PInf else Fin r
  | Lt => let r := round_pos fmt (- q) in
          if Qle_bool (pow2 (emax fmt + 1)) r then NInf else Fin (- r)
  end.

(** The nearest multiple of [u]. *)
Definition on_grid (u x : Q) : Q :=
  (inject_Z (round_half_even (x / u)) * u)%Q.

(** The spacing of the values of the format around [q > 0]. *)
Definition ulp (fmt : format) (q : Q) : Q :=
  pow2 (Z.max (ilog2 q) (emin fmt) - (prec fmt - 1)).

(** The order of the values: [-inf <= finite <= +inf]; [nan] is not
    comparable. *)
Definition fle (a b : fval) : Prop :=
  match a, b with
  | NaN, _ | _, NaN => False
  | NInf, _ | _, PInf => True
  | Fin x, Fin y => (x <= y)%Q
  | _, _ => False
  end.

(** ** Arrays *)

(** A 2-D numpy array, row by row. *)
Abbreviation ndarray A := (list (list A)) (only parsing).

Definition shape {A} (m : ndarray A) : nat * nat :=
  (length m, match m with [] => 0%nat | r :: _ => length r end).

Definition pixel {A} (m : ndarray A) (i j : nat) : option A :=
  r ← m !! i; r !! j.

(** [a > t] on one score. *)
Definition gt (t : Q) (a : Q) : bool :=
  match (a ?= t)%Q with Gt => true | _ => false end.

(** [a > t] for a score and a threshold of the format of the scores. *)
Definition gt_f (t : fval) (a : Q) : bool :=
  match t with
  | Fin t => gt t a
  | PInf => false
  | NInf => true
  | NaN => false
  end.

(** [mask > threshold]: a new boolean array, element by element.  The
    array is one that [np.save] wrote after [.astype(np.float16)], so its
    dtype is float16; the threshold is a Python float, and numpy converts
    it to the dtype of the array before it compares.  (NumPy 1 does so
    for thresholds between -65000 and 65000 and compares in float32 or
    float64 outside; NumPy 2 does so always.) *)
Definition np_gt (mask : ndarray Q) (threshold : Q) : ndarray bool :=
  let threshold := round binary16 threshold in
  (λ scores : list Q, gt_f threshold <$> scores) <$> mask.

(** ** Python values *)

(** [str(n)] for an int. *)
Definition str (n : Z) : string := NilZero.string_of_int (Z.to_int n).

(** Python's [int(s)] on a decimal text. *)
Definition int_of_str (s : string) : option Z :=
  Z.of_int <$> NilZero.int_of_string s.

(** [a / b] on floats; division by zero raises. *)
Definition py_div (a b : Q) : M Q :=
  if Qeq_bool b 0 then raise ZeroDivisionError else mret (a / b)%Q.

(** [d[k]] on a dict. *)
Definition getitem {V} (d : gmap Z V) (k : Z) : M V :=
  lift_option (KeyError k) (d !! k).

(** [if d:] on the result of [table.get(k)]: [None] and the empty dict are
    false; a non-empty dict is true and is what the branch then uses. *)
Definition if_true {V} (o : option (gmap Z V)) : option (gmap Z V) :=
  match o with
  | Some d => if bool_decide (d = ∅) then None else Some d
  | None => None
  end.

(** ** Geometry *)

Definition point : Type := (Q * Q)%type.
Abbreviation ring := (list point) (only parsing).

Record Polygon : Type := mkPolygon {
  exterior : ring;
  interiors : list ring;
}.

(** A shapely [MultiPolygon]; [[]] is [MULTIPOLYGON EMPTY]. *)
Abbreviation MultiPolygon := (list Polygon) (only parsing).

Definition map_points (f : point → point) (g : MultiPolygon) : MultiPolygon :=
  (λ p, mkPolygon (f <$> exterior p) ((λ r : list point, f <$> r) <$> interiors p)) <$> g.

(** Every coordinate pair of a geometry, ring after ring. *)
Definition coords (g : MultiPolygon) : list point :=
  concat ((λ p, exterior p ++ concat (interiors p)) <$> g).

(** [shapely.affinity.affine_transform] on a 2-D geometry with the matrix
    [(a, b, d, e, xoff, yoff)].  shapely is a library of the program, not
    part of the repository; this follows the library's definition. *)
Definition affine_pt (a b d e xoff yoff : Q) (p : point) : point :=
  let '(x, y) := p in
  (a * x + b * y + xoff, d * x + e * y + yoff)%Q.

(** [shapely.affinity.scale(geom, xfact=, yfact=, origin=(x0, y0, _))]:
    the matrix [(xfact, 0, 0, yfact)] with the offsets that keep the
    origin in place. *)
Definition affinity_scale (geom : MultiPolygon) (xfact yfact : Q)
    (origin : point) : MultiPolygon :=
  let '(x0, y0) := origin in
  map_points
    (affine_pt xfact 0 0 yfact (x0 - x0 * xfact) (y0 - y0 * yfact))%Q geom.

(** Equality of geometries up to [==] on each coordinate. *)
Definition pt_eq (p q : point) : Prop :=
  (p.1 == q.1)%Q ∧ (p.2 == q.2)%Q.

Definition poly_eq (p q : Polygon) : Prop :=
  Forall2 pt_eq (exterior p) (exterior q) ∧
  Forall2 (Forall2 pt_eq) (interiors p) (interiors q).

Definition geom_eq (g h : MultiPolygon) : Prop := Forall2 poly_eq g h.

(** *** The same in double precision

    Python's float arithmetic, for what depends on its rounding. *)

Definition fneg (a : fval) : fval :=
  match a with
  | Fin x => Fin (- x)
  | PInf => NInf
  | NInf => PInf
  | NaN => NaN
  end.

(** [inf] times a finite [x]: by the sign of [x]; [inf * 0] is [nan]. *)
Definition inf_times (x : Q) (positive : bool) : fval :=
  match (x ?= 0)%Q with
  | Eq => NaN
  | Gt => if positive then PInf else NInf
  | Lt => if positive then NInf else PInf
  end.

Definition fmul (a b : fval) : fval :=
  match a, b with
  | NaN, _ | _, NaN => NaN
  | Fin x, Fin y => round binary64 (x * y)
  | Fin x, PInf | PInf, Fin x => inf_times x true
  | Fin x, NInf | NInf, Fin x => inf_times x false
  | PInf, PInf | NInf, NInf => PInf
  | PInf, NInf | NInf, PInf => NInf
  end.

Definition fadd (a b : fval) : fval :=
  match a, b with
  | NaN, _ | _, NaN => NaN
  | Fin x, Fin y => round binary64 (x + y)
  | PInf, NInf | NInf, PInf => NaN
  | PInf, _ | _, PInf => PInf
  | NInf, _ | _, NInf => NInf
  end.

Definition fsub (a b : fval) : fval := fadd a (fneg b).

(** [a / b] on Python floats: a zero divisor raises, also for [a] infinite
    or [nan]; an overflow gives [inf]. *)
Definition py_truediv (a b : fval) : M fval :=
  match b with
  | Fin y =>
      if Qeq_bool y 0 then raise ZeroDivisionError
      else mret match a with
                | Fin x => round binary64 (x / y)
                | PInf => inf_times y true
                | NInf => inf_times y false
                | NaN => NaN
                end
  | PInf | NInf =>
      mret match a with Fin _ => Fin 0%Q | _ => NaN end
  | NaN => mret NaN
  end.

Definition point64 : Type := (fval * fval)%type.

Record Polygon64 : Type := mkPolygon64 {
  exterior64 : list point64;
  interiors64 : list (list point64);
}.

Abbreviation MultiPolygon64 := (list Polygon64) (only parsing).

Definition map_points64 (f : point64 → point64) (g : MultiPolygon64)
    : MultiPolygon64 :=
  (λ p, mkPolygon64 (f <$> exterior64 p)
          ((λ r : list point64, f <$> r) <$> interiors64 p)) <$> g.

Definition coords64 (g : MultiPolygon64) : list point64 :=
  concat ((λ p, exterior64 p ++ concat (interiors64 p)) <$> g).

(** A geometry with finite coordinates, as one of doubles. *)
Definition finite (g : MultiPolygon) : MultiPolygon64 :=
  (λ p, mkPolygon64 ((λ c : point, (Fin c.1, Fin c.2)) <$> exterior p)
          ((λ r : list point, (λ c : point, (Fin c.1, Fin c.2)) <$> r)
             <$> interiors p)) <$> g.

(** [affine_transform] as the library computes it on each coordinate
    pair: [xp = a * x + b * y + xoff], [yp = d * x + e * y + yoff], every
    operation rounded. *)
Definition affine_pt64 (a b d e xoff yoff : fval) (p : point64) : point64 :=
  let '(x, y) := p in
  (fadd (fadd (fmul a x) (fmul b y)) xoff,
   fadd (fadd (fmul d x) (fmul e y)) yoff).

(** [scale]: the matrix [(xfact, 0.0, 0.0, yfact)] and the offsets
    [x0 - x0 * xfact], [y0 - y0 * yfact]. *)
Definition affinity_scale64 (geom : MultiPolygon64) (xfact yfact : fval)
    (origin : point64) : MultiPolygon64 :=
  let '(x0, y0) := origin in
  map_points64
    (affine_pt64 xfact (Fin 0%Q) (Fin 0%Q) yfact
       (fsub x0 (fmul x0 xfact)) (fsub y0 (fmul y0 yfact))) geom.

(** Zero, or of a magnitude from [2^-1021] to [2^1022]: a product of two
    such numbers that is again one of them neither overflows nor falls
    among the subnormal doubles. *)
Definition normal64 (q : Q) : bool :=
  Qeq_bool q 0 ||
  (Qle_bool (pow2 (-1021)) (Qabs q) && Qle_bool (Qabs q) (pow2 1022)).

(** The pair of doubles [p] is finite and each of its two numbers is
    within the fraction [tol] of the coordinate of [c] it stands for. *)
Definition within (tol : Q) (p : point64) (c : point) : Prop :=
  match p with
  | (Fin x, Fin y) =>
      (Qabs (x - c.1) <= tol * Qabs c.1)%Q ∧
      (Qabs (y - c.2) <= tol * Qabs c.2)%Q
  | _ => False
  end.

(** ** Collaborators

    Functions of [utils], of the model and of shapely that the file calls
    and that are not in the repository's sources here.  Their results are
    parameters of the development. *)

Record Env : Type := mkEnv {
  (** [utils.get_wkt_data()]: image id -> class (1-based) -> WKT. *)
  get_wkt_data : gmap string (gmap Z string);
  (** [utils.get_scalers(im_id, im_size)]; [None] when the image has no
      size metadata. *)
  get_scalers : string → nat * nat → option (Q * Q);
  (** [utils.mask_to_polygons(mask, epsilon)]. *)
  mask_to_polygons : ndarray bool → Q → MultiPolygon;
  (** [utils.mask_for_polygons(im_size, polygons)]. *)
  mask_for_polygons : nat * nat → MultiPolygon → ndarray bool;
  (** [shapely.wkt.dumps] and [shapely.wkt.loads]. *)
  wkt_dumps : MultiPolygon → string;
  wkt_loads : string → option MultiPolygon;
  (** [a.intersection(b)], [a.union(b)], [a.area]. *)
  intersection : MultiPolygon → MultiPolygon → MultiPolygon;
  union : MultiPolygon → MultiPolygon → MultiPolygon;
  area : MultiPolygon → Q;
  (** [utils.load_image(im_id)]; [None] when it raises. *)
  load_image : string → option (ndarray (list Q));
  (** [model.preprocess_image], [model.predict_image_mask(Image(id, data))]
      and the rounding of [.astype(np.float16)] on one score. *)
  preprocess_image : ndarray (list Q) → ndarray (list Q);
  predict_image_mask : string → ndarray (list Q) → ndarray Q;
  float16 : Q → Q;
}.

(** Modelled from the spec: [utils.mask_tp_fp_fn], the confusion counts of
    section 4.5: [tp = count(pred ∧ ref)], [fp = count(pred ∧ ¬ref)],
    [fn = count(¬pred ∧ ref)].  The call site passes the threshold as a
    third argument; by the spec the prediction is already boolean and the
    counts do not depend on it. *)
Definition count_where (f : bool → bool → bool)
    (pred_mask true_mask : ndarray bool) : Z :=
  Z.of_nat (length (filter (λ pr, f pr.1 pr.2 = true)
                      (concat (zip_with zip pred_mask true_mask)))).

Definition mask_tp_fp_fn (pred_mask true_mask : ndarray bool)
    (threshold : Q) : Z * Z * Z :=
  (count_where (λ p r, p && r) pred_mask true_mask,
   count_where (λ p r, p && negb r) pred_mask true_mask,
   count_where (λ p r, negb p && r) pred_mask true_mask).

Definition eps : Q := 1 # 1000000000000000.

Section Worker.
Variable env : Env.

(** Modelled from the spec: [utils.scale_to_mask], section 4.6: the
    ground truth is rescaled annotation -> pixel space with the factors
    of the coordinate scaler, origin fixed. *)
Definition scale_to_mask (im_id : string) (im_size : nat * nat)
    (poly : MultiPolygon) : M MultiPolygon :=
  '(x_scaler, y_scaler) ←
      lift_option (NotFound im_id) (get_scalers env im_id im_size);
  mret (affinity_scale poly x_scaler y_scaler (0, 0)%Q).

Definition get_polygons (im_id : string) (mask : ndarray bool)
    (epsilon : Q) (cls : Z) : M MultiPolygon :=
  '(x_scaler, y_scaler) ←
      lift_option (NotFound im_id) (get_scalers env im_id (shape mask));
  x_scaler ← py_div 1 x_scaler;
  y_scaler ← py_div 1 y_scaler;
  let polygons := mask_to_polygons env mask epsilon in
  mret (affinity_scale polygons x_scaler y_scaler (0, 0)%Q).

(** The two numbers of the log line. *)
Definition polygon_jaccard (pred_poly train_poly : MultiPolygon) : Q :=
  (area env (intersection env pred_poly train_poly) /
   (area env (union env pred_poly train_poly) + eps))%Q.

Definition mask_jaccard (tp fp fn : Z) : Q :=
  (inject_Z tp / (inject_Z (tp + fp + fn) + eps))%Q.

Definition log_jaccard (im_id : string) (pred_poly : MultiPolygon)
    (train_poly : string) (mask : ndarray bool) (threshold : Q) : M unit :=
  let im_size := shape mask in
  train_poly ← lift_option (WKTReadingError train_poly)
                  (wkt_loads env train_poly);
  scaled_train_poly ← scale_to_mask im_id im_size train_poly;
  let true_mask := mask_for_polygons env im_size scaled_train_poly in
  let '(tp, fp, fn) := mask_tp_fp_fn mask true_mask threshold in
  logger_info (InfoJaccard (polygon_jaccard pred_poly train_poly)
                           (mask_jaccard tp fp fn)).

(** An output row: [(im_id, str(poly_type), wkt)]. *)
Definition row : Type := (string * string * string)%type.

Definition mask_name (im_id : string) : string := im_id +:+ ".mask".

(** [store] is the directory of mask files: file name -> saved array. *)
Definition get_poly_data (im_id : string)
    (store : gmap string (ndarray Q)) (cls : Z)
    (threshold epsilon : Q) : M row :=
  let poly_type := cls + 1 in
  let mask_path := mask_name im_id in
  let train_polygons := get_wkt_data env !! im_id in
  match store !! mask_path with
  | Some saved =>
      logger_info (Info im_id);;
      let mask := saved in
      let mask := np_gt mask threshold in
      pred_poly ← get_polygons im_id mask epsilon cls;
      match if_true train_polygons with
      | Some train_polygons =>
          train_poly ← getitem train_polygons poly_type;
          log_jaccard im_id pred_poly train_poly mask threshold;;
          out ← getitem train_polygons poly_type;
          mret (im_id, str poly_type, out)
      | None =>
          mret (im_id, str poly_type, wkt_dumps env pred_poly)
      end
  | None =>
      logger_info (Info (im_id +:+ " empty"));;
      mret (im_id, str poly_type, "MULTIPOLYGON EMPTY")
  end.

(** *** The driver

    What [main] does before its first loop (parsing the arguments, reading
    [hps.json] and the sample submission, the assert on the name of the
    output, creating the directory, restoring the model) is taken as done:
    [Args] and the directory [store] are what it leaves. *)

Record Args : Type := mkArgs {
  (** [--train-only], [--masks-only], [--threshold], [--epsilon]. *)
  train_only : bool;
  masks_only : bool;
  threshold : Q;
  epsilon : Q;
  (** [args.only.split(',')], or [[]] when the option is absent. *)
  only : list string;
  (** [hps.cls], read from [hps.json]. *)
  hps_cls : Z;
  (** [sample_submission.csv]: its header and its rows. *)
  header : list string;
  sample_submission : list row;
}.

(** [[im_id for im_id, cls, _ in reader if cls == '1']]. *)
Definition image_ids (args : Args) : list string :=
  (λ r : row, r.1.1) <$>
    filter (λ r : row, r.1.2 = "1") (sample_submission args).

Definition train_ids : gset string := dom (get_wkt_data env).

(** [only or image_ids], with [only] the set of the requested ids. *)
Definition only_or_image_ids (args : Args) : list string :=
  let only_set : gset string := list_to_set (only args) in
  if bool_decide (only_set = ∅) then image_ids args else elements only_set.

Definition to_predict (args : Args) : gset string :=
  if train_only args then train_ids
  else list_to_set (only_or_image_ids args).

Definition sorted (ids : gset string) : list string :=
  merge_sort String.le (elements ids).

(** One turn of the mask-prediction loop on the directory [store].  Of
    the calls of a turn, loading the image and the assert are the ones
    given a way to raise; a turn that raises leaves the directory as it
    found it, so a file that an interrupted [np.save] left incomplete is
    not part of the model. *)
Definition predict_one (store : gmap string (ndarray Q)) (im_id : string)
    : M (gmap string (ndarray Q)) :=
  let im_path := mask_name im_id in
  if bool_decide (is_Some (store !! im_path)) then
    logger_info (Info ("Skip " +:+ im_id +:+ ": already exists"));;
    mret store
  else
    logger_info (Info im_id);;
    raw ← lift_option (PredictError im_id) (load_image env im_id);
    let data := preprocess_image env raw in
    let mask := (λ scores : list Q, float16 env <$> scores) <$>
                predict_image_mask env im_id data in
    if bool_decide (shape mask = shape data)
    then mret (<[im_path := mask]> store)
    else raise AssertionError.

(** The loop: the directory as the loop leaves it, also when a turn
    raises, with the log and the way the loop ended. *)
Fixpoint predict_masks (ids : list string) (store : gmap string (ndarray Q))
    : gmap string (ndarray Q) * M unit :=
  match ids with
  | [] => (store, mret tt)
  | im_id :: rest =>
      match predict_one store im_id with
      | (w, Ok store') =>
          let '(final, (w', r)) := predict_masks rest store' in
          (final, (w ++ w', r))
      | (w, Raise e) => (store, (w, Raise e))
      end
  end.

(** A Python set is iterated in some order; [elements] fixes one. *)
Definition to_output (args : Args) : list string :=
  if train_only args then elements train_ids else only_or_image_ids args.

(** The polygon loop: [pool.imap] hands the rows back in the order of the
    ids; a row is written before the next one is asked for, and an
    exception of a worker ends the loop.  The result is the rows written,
    the log and the way the loop ended. *)
Fixpoint write_rows (args : Args) (store : gmap string (ndarray Q))
    (ids : list string) : list row * M unit :=
  match ids with
  | [] => ([], mret tt)
  | im_id :: rest =>
      match get_poly_data im_id store (hps_cls args)
              (threshold args) (epsilon args) with
      | (w, Ok r) =>
          let '(rows, (w', res)) := write_rows args store rest in
          (r :: rows, (w ++ w', res))
      | (w, Raise e) => ([], (w, Raise e))
      end
  end.

Definition csv_row (r : row) : list string := [r.1.1; r.1.2; r.2].

(** [main]: the directory of masks at the end, the lines of the output
    csv when it was opened, the log and the way the run ended. *)
Definition main (args : Args) (store : gmap string (ndarray Q))
    : gmap string (ndarray Q) * option (list (list string)) * M unit :=
  let '(store, (w, r)) :=
    let '(final, (w, r)) := predict_masks (sorted (to_predict args)) store in
    (final, (Info "Predicting masks" :: w, r)) in
  match r with
  | Raise e => (store, None, (w, Raise e))
  | Ok _ =>
      if masks_only args then
        (store, None,
         (w ++ [Info "Was building masks only, done."], Ok tt))
      else
        let '(rows, (w', r')) := write_rows args store (to_output args) in
        (store, Some (header args :: (csv_row <$> rows)),
         (w ++ Info "Building polygons" :: w', r'))
  end.
End Worker.

(** *** The [--only] option

    [only = set(args.only.split(',')) if args.only else set()]: the field
    [only] of [Args] is [parse_only] of the option's text. *)

(** The character [','], the head of the text [","]. *)
Definition comma : Ascii.ascii :=
  Eval cbv in match "," with String c _ => c | EmptyString => Ascii.zero end.

(** [s.split(sep)] for a one-character separator. *)
Fixpoint split_on (sep : Ascii.ascii) (s : string) : list string :=
  match s with
  | EmptyString => [EmptyString]
  | String c s' =>
      if Ascii.eqb c sep then EmptyString :: split_on sep s'
      else match split_on sep s' with
           | piece :: rest => String c piece :: rest
           | [] => [String c EmptyString]
           end
  end.

(** [None] (option absent) and the empty text are false. *)
Definition parse_only (o : option string) : list string :=
  match o with
  | Some s => if bool_decide (s = EmptyString) then [] else split_on comma s
  | None => []
  end.

(** [c in s] for a character. *)
Fixpoint contains (c : Ascii.ascii) (s : string) : bool :=
  match s with
  | EmptyString => false
  | String c' s' => Ascii.eqb c' c || contains c s'
  end.

(** *** The directory of the masks

    [assert args.output.endswith('.csv')] and
    [store = Path(args.output.split('.csv')[0])]. *)

(** [s.startswith(p)]. *)
Fixpoint startswith (p s : string) : bool :=
  match p, s with
  | EmptyString, _ => true
  | String a p', String b s' => Ascii.eqb a b && startswith p' s'
  | String _ _, EmptyString => false
  end.

(** [s.endswith(suf)]: some tail of [s] is [suf]. *)
Fixpoint endswith (suf s : string) : bool :=
  String.eqb s suf ||
  match s with
  | EmptyString => false
  | String _ s' => endswith suf s'
  end.

(** [s.split(sep)[0]]: the text before the first [sep], all of [s] when
    [sep] does not occur. *)
Fixpoint before_first (sep s : string) : string :=
  if startswith sep s then EmptyString
  else match s with
       | EmptyString => EmptyString
       | String c s' => String c (before_first sep s')
       end.

(** The text that is handed to [Path(...)], after the assert.  How
    pathlib reads a text as a path is not modelled. *)
Definition store_of (output : string) : M string :=
  if endswith ".csv" output then mret (before_first ".csv" output)
  else raise AssertionError.

(** ** A small world to run the code in

    Stand-ins for the collaborators, used by the examples below.  The
    geometry is exact on multipolygons whose parts are axis-aligned
    rectangles that are pairwise equal or disjoint, the shapes the
    stand-in extractor produces. *)
Module Fixture.

#[global] Instance Q_eq_dec : EqDecision Q.
Proof. solve_decision. Defined.
#[global] Instance Polygon_eq_dec : EqDecision Polygon.
Proof. solve_decision. Defined.

(** The square of pixel [(i, j)]: row [i], column [j]. *)
Definition pixel_square (i j : nat) : Polygon :=
  let x := inject_Z (Z.of_nat j) in
  let y := inject_Z (Z.of_nat i) in
  mkPolygon [(x, y); (x + 1, y); (x + 1, y + 1); (x, y + 1); (x, y)]%Q [].

(** One square per pixel that is on; nothing is simplified. *)
Definition squares_of (mask : ndarray bool) (epsilon : Q) : MultiPolygon :=
  concat (imap (λ i r,
    omap (λ jb : nat * bool, if jb.2 then Some (pixel_square i jb.1) else None)
         (imap pair r)) mask).

Fixpoint shoelace (r : ring) : Q :=
  match r with
  | (x1, y1) :: (((x2, y2) :: _) as tl) => x1 * y2 - x2 * y1 + shoelace tl
  | _ => 0
  end%Q.

Definition ring_area (r : ring) : Q := (Qabs (shoelace r) / 2)%Q.

Definition Qsum (l : list Q) : Q := foldr Qplus 0%Q l.

Definition polygon_area (p : Polygon) : Q :=
  (ring_area (exterior p) - Qsum (ring_area <$> interiors p))%Q.

Definition total_area (g : MultiPolygon) : Q :=
  Qred (Qsum (polygon_area <$> g)).

Definition common (a b : MultiPolygon) : MultiPolygon :=
  filter (λ p, p ∈ b) a.

Definition merged (a b : MultiPolygon) : MultiPolygon :=
  a ++ filter (λ p, p ∉ a) b.

(** A pixel is on when its centre lies in the bounding box of a part. *)
Definition in_bbox (c : point) (p : Polygon) : bool :=
  let xs := (exterior p).*1 in
  let ys := (exterior p).*2 in
  existsb (λ x, Qle_bool x c.1) xs && existsb (λ x, Qle_bool c.1 x) xs &&
  existsb (λ y, Qle_bool y c.2) ys && existsb (λ y, Qle_bool c.2 y) ys.

Definition centre (i j : nat) : point :=
  (inject_Z (Z.of_nat j) + (1 # 2), inject_Z (Z.of_nat i) + (1 # 2))%Q.

Definition raster (im_size : nat * nat) (g : MultiPolygon) : ndarray bool :=
  (λ i, (λ j, existsb (in_bbox (centre i j)) g) <$> seq 0 im_size.2)
  <$> seq 0 im_size.1.

Definition show_Q (q : Q) : string :=
  let q := Qred q in
  if bool_decide (Qden q = 1%positive) then str (Qnum q)
  else str (Qnum q) +:+ "/" +:+ str (Zpos (Qden q)).

Definition show_ring (r : ring) : string :=
  "(" +:+ String.concat ", " ((λ p : point, show_Q p.1 +:+ " " +:+ show_Q p.2) <$> r)
      +:+ ")".

Definition show (g : MultiPolygon) : string :=
  match g with
  | [] => "MULTIPOLYGON EMPTY"
  | _ => "MULTIPOLYGON (" +:+
         String.concat ", "
           ((λ p, "(" +:+ String.concat ", "
                     (show_ring <$> exterior p :: interiors p) +:+ ")") <$> g)
         +:+ ")"
  end.

Definition unit_square : MultiPolygon := [pixel_square 0 0].

(** The texts the stand-in parser knows. *)
Definition read (s : string) : option MultiPolygon :=
  if bool_decide (s = "MULTIPOLYGON EMPTY") then Some []
  else if bool_decide (s = show unit_square) then Some unit_square
  else None.

Definition world (table : gmap string (gmap Z string))
    (scalers : gmap string (Q * Q)) : Env :=
  {| get_wkt_data := table;
     get_scalers := λ im_id _, scalers !! im_id;
     mask_to_polygons := squares_of;
     mask_for_polygons := raster;
     wkt_dumps := show;
     wkt_loads := read;
     intersection := common;
     union := merged;
     area := total_area;
     load_image := λ im_id, Some [[[3 # 4]; [1 # 4]]]%Q;
     preprocess_image := id;
     predict_image_mask := λ _ data, (λ r : list (list Q), hd 0%Q <$> r) <$> data;
     float16 := Qred |}.

(** One saved mask of one row: scores 3/4 and 1/2. *)
Definition saved_mask : ndarray Q := [[3 # 4; 1 # 2]]%Q.

Definition one_file : gmap string (ndarray Q) :=
  {[ "img1.mask" := saved_mask ]}.

Definition scalers1 : gmap string (Q * Q) := {[ "img1" := (2, 4)%Q ]}.

(** Ground truth for class 1 of img1: the unit square. *)
Definition table_square : gmap string (gmap Z string) :=
  {[ "img1" := {[ 1 := show unit_square ]} ]}.

(** Ground truth for img1 that only knows class 3. *)
Definition table_class3 : gmap string (gmap Z string) :=
  {[ "img1" := {[ 3 := "MULTIPOLYGON EMPTY" ]} ]}.

(** Ground truth for img1 that only knows class 2. *)
Definition table_class2 : gmap string (gmap Z string) :=
  {[ "img1" := {[ 2 := show unit_square ]} ]}.

(** What the stand-in extractor and the scaler give for img1. *)
Definition mask1 : list (list bool) := np_gt saved_mask (1 # 2).

Definition pred1 : list Polygon :=
  affinity_scale (squares_of mask1 5) (1 / 2) (1 / 4) (0, 0)%Q.

Definition args1 : Args :=
  {| train_only := false; masks_only := false;
     threshold := 1 # 2; epsilon := 5;
     only := ["img2"; "img1"]; hps_cls := 0;
     header := ["ImageId"; "ClassType"; "MultipolygonWKT"];
     sample_submission := [("img1", "1", ""); ("img1", "2", "");
                           ("img3", "1", "")] |}.

(** Further stand-ins: scale factors for two images, a zero factor, a
    ground truth that does not parse, and a world where one image cannot
    be loaded. *)
Definition scalers2 : gmap string (Q * Q) :=
  {[ "img1" := (2, 4)%Q; "img2" := (2, 4)%Q ]}.

Definition scalers_zero : gmap string (Q * Q) := {[ "img1" := (0, 4)%Q ]}.

Definition table_unreadable : gmap string (gmap Z string) :=
  {[ "img1" := {[ 1 := "POLYGON ((0 0" ]} ]}.

Definition world_without (missing : string)
    (table : gmap string (gmap Z string))
    (scalers : gmap string (Q * Q)) : Env :=
  {| get_wkt_data := table;
     get_scalers := λ im_id _, scalers !! im_id;
     mask_to_polygons := squares_of;
     mask_for_polygons := raster;
     wkt_dumps := show;
     wkt_loads := read;
     intersection := common;
     union := merged;
     area := total_area;
     load_image := λ im_id,
       if bool_decide (im_id = missing) then None
       else Some [[[3 # 4]; [1 # 4]]]%Q;
     preprocess_image := id;
     predict_image_mask :=
       λ _ data, (λ r : list (list Q), hd 0%Q <$> r) <$> data;
     float16 := Qred |}.

End Fixture.

(** * Properties *)

(** ** Rounding to a binary format *)

Ltac overflow_cases :=
  repeat match goal with
    | |- context [Qle_bool ?a ?b] =>
        let B := fresh "B" in
        destruct (Qle_bool a b) eqn:B;
        [apply Qle_bool_iff in B
        |apply not_true_iff_false in B; rewrite Qle_bool_iff in B;
         apply Qnot_le_lt in B]
    end.

Ltac compare_cases :=
  repeat match goal with
    | H : (_ ?= _)%Q = Eq |- _ => apply Qeq_alt in H
    | H : (_ ?= _)%Q = Lt |- _ => apply Qlt_alt in H
    | H : (_ ?= _)%Q = Gt |- _ => apply Qgt_alt in H
    end.

Section Rounding.
Local Open Scope Q_scope.


Lemma pow2_pos e : 0 < pow2 e.
Proof. apply Qpower_0_lt. reflexivity. Qed.

Lemma pow2_le e1 e2 : (e1 <= e2)%Z -> pow2 e1 <= pow2 e2.
Proof. intros H. apply Qpower_le_compat_l; [done|discriminate]. Qed.

Lemma pow2_lt e1 e2 : (e1 < e2)%Z -> pow2 e1 < pow2 e2.
Proof. intros H. apply Qpower_lt_compat_l; [done|reflexivity]. Qed.

Lemma pow2_add a b : pow2 (a + b) == pow2 a * pow2 b.
Proof. apply Qpower_plus. discriminate. Qed.

Lemma pow2_succ a : pow2 (a + 1) == 2 * pow2 a.
Proof. rewrite pow2_add. change (pow2 1) with 2. ring. Qed.

Lemma pow2_Z k : (0 <= k)%Z -> pow2 k == inject_Z (2 ^ k).
Proof. intros H. unfold pow2. by rewrite (Zpower_Qpower 2 k H). Qed.

Lemma pow2_le_inv e1 e2 : pow2 e1 <= pow2 e2 -> (e1 <= e2)%Z.
Proof. intros H. apply (Qpower_le_compat_l_inv 2); [done|reflexivity]. Qed.

Lemma pow2_lt_inv e1 e2 : pow2 e1 < pow2 e2 -> (e1 < e2)%Z.
Proof. intros H. apply (Qpower_lt_compat_l_inv 2); [done|reflexivity]. Qed.

(** [ilog2] is the binary exponent. *)
Lemma ilog2_spec q : 0 < q -> pow2 (ilog2 q) <= q < pow2 (ilog2 q + 1).
Proof.
  intros Hq. destruct q as [n d]. unfold ilog2. cbn [Qnum Qden].
  assert (0 < n)%Z as Hn.
  { unfold Qlt in Hq. simpl in Hq. lia. }
  set (a := Z.log2 n). set (b := Z.log2 (Z.pos d)).
  destruct (Z.log2_spec n Hn) as [Ha1 Ha2]. fold a in Ha1, Ha2.
  destruct (Z.log2_spec (Z.pos d)) as [Hb1 Hb2]; [lia|]. fold b in Hb1, Hb2.
  assert (0 <= a)%Z as Ha0 by apply Z.log2_nonneg.
  assert (0 <= b)%Z as Hb0 by apply Z.log2_nonneg.
  pose proof (pow2_pos (a - b)) as HP.
  pose proof (pow2_pos b) as HB.
  assert (pow2 (a - b) * pow2 b == pow2 a) as HPB.
  { rewrite <-pow2_add. by replace (a - b + b)%Z with a by lia. }
  assert (pow2 a <= inject_Z n) as HA1.
  { rewrite (pow2_Z a Ha0), <-Zle_Qle. done. }
  assert (inject_Z n < 2 * pow2 a) as HA2.
  { rewrite <-pow2_succ, pow2_Z by lia. rewrite <-Zlt_Qlt.
    by replace (a + 1)%Z with (Z.succ a) by lia. }
  assert (pow2 b <= inject_Z (Z.pos d)) as HB1.
  { rewrite (pow2_Z b Hb0), <-Zle_Qle. done. }
  assert (inject_Z (Z.pos d) < 2 * pow2 b) as HB2.
  { rewrite <-pow2_succ, pow2_Z by lia. rewrite <-Zlt_Qlt.
    by replace (b + 1)%Z with (Z.succ b) by lia. }
  assert ((n # d) * inject_Z (Z.pos d) == inject_Z n) as Hnd.
  { rewrite (Qmake_Qdiv n d). field. intros H0.
    apply (inject_Z_injective (Z.pos d) 0) in H0. lia. }
  set (q := n # d) in *. set (D := inject_Z (Z.pos d)) in *.
  set (N := inject_Z n) in *. set (P := pow2 (a - b)) in *.
  set (A := pow2 a) in *. set (B := pow2 b) in *.
  assert (q < 2 * P) as Hup.
  { destruct (Qlt_le_dec q (2 * P)) as [|Hge]; [done|]. exfalso. nra. }
  assert (P * (1 # 2) < q) as Hlow.
  { destruct (Qlt_le_dec (P * (1 # 2)) q) as [|Hge]; [done|]. exfalso. nra. }
  destruct (Qle_bool P q) eqn:Hle.
  - apply Qle_bool_iff in Hle. split; [done|].
    fold P. by rewrite pow2_succ.
  - assert (P == 2 * pow2 (a - b - 1)) as HP2.
    { unfold P. rewrite <-pow2_succ. by replace (a - b - 1 + 1)%Z with (a - b)%Z by lia. }
    split.
    + apply Qlt_le_weak. lra.
    + replace (a - b - 1 + 1)%Z with (a - b)%Z by lia. fold P.
      destruct (Qlt_le_dec q P) as [|Hge]; [done|].
      apply Qle_bool_iff in Hge. congruence.
Qed.

Lemma ilog2_unique q e : pow2 e <= q < pow2 (e + 1) -> ilog2 q = e.
Proof.
  intros [H1 H2].
  assert (0 < q) as Hq by (pose proof (pow2_pos e); lra).
  destruct (ilog2_spec q Hq) as [H3 H4].
  assert (pow2 e < pow2 (ilog2 q + 1)) as Ha by lra.
  assert (pow2 (ilog2 q) < pow2 (e + 1)) as Hb by lra.
  apply pow2_lt_inv in Ha, Hb. lia.
Qed.

Lemma ilog2_mono q1 q2 : 0 < q1 -> q1 <= q2 -> (ilog2 q1 <= ilog2 q2)%Z.
Proof.
  intros H1 H12.
  destruct (ilog2_spec q1 H1) as [Ha _].
  destruct (ilog2_spec q2) as [_ Hb]; [lra|].
  assert (pow2 (ilog2 q1) < pow2 (ilog2 q2 + 1)) as H by lra.
  apply pow2_lt_inv in H. lia.
Qed.

Lemma ilog2_eq q1 q2 : 0 < q1 -> q1 == q2 -> ilog2 q1 = ilog2 q2.
Proof.
  intros Hpos Heq. symmetry. apply ilog2_unique. rewrite <-Heq.
  by apply ilog2_spec.
Qed.

#[global] Instance round_half_even_proper :
  Proper (Qeq ==> eq) round_half_even.
Proof.
  intros x y Hxy. unfold round_half_even.
  assert (Qfloor x = Qfloor y) as -> by (by rewrite Hxy).
  by rewrite Hxy.
Qed.

Lemma round_half_even_cases x :
  let f := Qfloor x in
  (round_half_even x = f ∧ x - inject_Z f <= 1 # 2) ∨
  (round_half_even x = (f + 1)%Z ∧ 1 # 2 <= x - inject_Z f).
Proof.
  intros f. unfold round_half_even. fold f.
  destruct (x - inject_Z f ?= 1 # 2) eqn:E.
  - apply Qeq_alt in E. destruct (Z.even f); [left|right]; split; lra || done.
  - apply Qlt_alt in E. left. split; [done|lra].
  - apply Qgt_alt in E. right. split; [done|lra].
Qed.

Lemma Qfloor_bounds x : inject_Z (Qfloor x) <= x < inject_Z (Qfloor x) + 1.
Proof.
  split; [apply Qfloor_le|].
  pose proof (Qlt_floor x) as H. by rewrite inject_Z_plus in H.
Qed.

(** The nearest integer is within one half. *)
Lemma round_half_even_near x :
  inject_Z (round_half_even x) - (1 # 2) <= x
    <= inject_Z (round_half_even x) + (1 # 2).
Proof.
  pose proof (Qfloor_bounds x) as [H1 H2].
  destruct (round_half_even_cases x) as [[-> H]|[-> H]].
  - lra.
  - rewrite inject_Z_plus. change (inject_Z 1) with 1. lra.
Qed.

Lemma round_half_even_Z n : round_half_even (inject_Z n) = n.
Proof.
  unfold round_half_even. rewrite Qfloor_Z.
  assert ((inject_Z n - inject_Z n ?= 1 # 2) = Lt) as ->; [|done].
  apply Qlt_alt. setoid_replace (inject_Z n - inject_Z n) with 0 using relation Qeq by ring.
  reflexivity.
Qed.

Lemma round_half_even_mono x y :
  x <= y -> (round_half_even x <= round_half_even y)%Z.
Proof.
  intros Hxy. pose proof (Qfloor_resp_le x y Hxy) as Hf.
  destruct (Z.eq_dec (Qfloor x) (Qfloor y)) as [Heq|Hne].
  - unfold round_half_even. rewrite Heq.
    destruct (x - inject_Z (Qfloor y) ?= 1 # 2) eqn:Ex;
      destruct (y - inject_Z (Qfloor y) ?= 1 # 2) eqn:Ey;
      try (destruct (Z.even (Qfloor y))); try lia;
      repeat match goal with
        | H : (_ ?= _)%Q = Eq |- _ => apply Qeq_alt in H
        | H : (_ ?= _)%Q = Lt |- _ => apply Qlt_alt in H
        | H : (_ ?= _)%Q = Gt |- _ => apply Qgt_alt in H
        end; exfalso; lra.
  - assert (Qfloor x + 1 <= Qfloor y)%Z as Hlt by lia.
    destruct (round_half_even_cases x) as [[-> _]|[-> _]];
      destruct (round_half_even_cases y) as [[-> _]|[-> _]]; lia.
Qed.


#[global] Instance on_grid_proper : Proper (Qeq ==> Qeq ==> Qeq) on_grid.
Proof.
  intros u1 u2 Hu x1 x2 Hx. unfold on_grid.
  assert (round_half_even (x1 / u1) = round_half_even (x2 / u2)) as ->.
  { apply round_half_even_proper. by rewrite Hu, Hx. }
  by rewrite Hu.
Qed.

Lemma on_grid_mono u x y : 0 < u -> x <= y -> on_grid u x <= on_grid u y.
Proof.
  intros Hu Hxy. unfold on_grid.
  apply Qmult_le_compat_r; [|lra]. rewrite <-Zle_Qle.
  apply round_half_even_mono. unfold Qdiv.
  apply Qmult_le_compat_r; [done|]. apply Qlt_le_weak.
  by apply Qinv_lt_0_compat.
Qed.

Lemma on_grid_fix u n : 0 < u -> on_grid u (inject_Z n * u) == inject_Z n * u.
Proof.
  intros Hu. unfold on_grid.
  assert (inject_Z n * u / u == inject_Z n) as -> by (field; lra).
  by rewrite round_half_even_Z.
Qed.

Lemma on_grid_near u x :
  0 < u -> Qabs (on_grid u x - x) <= u * (1 # 2).
Proof.
  intros Hu. unfold on_grid.
  pose proof (round_half_even_near (x / u)) as [H1 H2].
  set (n := inject_Z (round_half_even (x / u))) in *.
  set (y := x / u) in *.
  assert (n * u - x == (n - y) * u) as -> by (unfold y; field; lra).
  rewrite (Qmult_comm u). apply Qabs_case; intros _.
  - apply Qmult_le_compat_r; lra.
  - setoid_replace (- ((n - y) * u)) with ((y - n) * u)
      using relation Qeq by ring.
    apply Qmult_le_compat_r; lra.
Qed.


Lemma ulp_pos fmt q : 0 < ulp fmt q.
Proof. apply pow2_pos. Qed.

Lemma round_pos_on_grid fmt q : round_pos fmt q == on_grid (ulp fmt q) q.
Proof. unfold round_pos. by rewrite Qred_correct. Qed.

Lemma pow2_multiple e k :
  (0 <= k)%Z -> pow2 (e + k) == inject_Z (2 ^ k) * pow2 e.
Proof. intros Hk. rewrite pow2_add, (pow2_Z k Hk). ring. Qed.

(** Rounding of positive numbers keeps the order, also across a change
    of exponent. *)
Lemma round_pos_mono fmt q1 q2 :
  (1 <= prec fmt)%Z -> 0 < q1 -> q1 <= q2 ->
  round_pos fmt q1 <= round_pos fmt q2.
Proof.
  intros Hprec H1 H12. rewrite !round_pos_on_grid.
  pose proof (ilog2_mono q1 q2 H1 H12) as Hil.
  destruct (ilog2_spec q1 H1) as [_ Hup1].
  destruct (ilog2_spec q2) as [Hlow2 _]; [lra|].
  set (e1 := Z.max (ilog2 q1) (emin fmt)).
  set (e2 := Z.max (ilog2 q2) (emin fmt)).
  assert (e1 <= e2)%Z as He by lia.
  destruct (Z.eq_dec e1 e2) as [Heq|Hne].
  - unfold ulp. fold e1 e2. rewrite Heq.
    apply on_grid_mono; [apply pow2_pos|done].
  - assert (e2 = ilog2 q2) as He2 by lia.
    set (B := pow2 e2).
    assert (q1 <= B) as Hq1.
    { apply Qlt_le_weak. eapply Qlt_le_trans; [exact Hup1|].
      apply pow2_le. lia. }
    assert (B <= q2) as Hq2 by (unfold B; by rewrite He2).
    assert (B == inject_Z (2 ^ (e2 - e1 + (prec fmt - 1))) * ulp fmt q1)
      as HB1.
    { unfold ulp, B. fold e1. rewrite <-pow2_multiple by lia.
      by replace (e1 - (prec fmt - 1) + (e2 - e1 + (prec fmt - 1)))%Z
        with e2 by lia. }
    assert (B == inject_Z (2 ^ (prec fmt - 1)) * ulp fmt q2) as HB2.
    { unfold ulp, B. fold e2. rewrite <-pow2_multiple by lia.
      by replace (e2 - (prec fmt - 1) + (prec fmt - 1))%Z with e2 by lia. }
    apply Qle_trans with B.
    + rewrite HB1, <-(on_grid_fix (ulp fmt q1)) by apply ulp_pos.
      apply on_grid_mono; [apply ulp_pos|]. by rewrite <-HB1.
    + rewrite HB2, <-(on_grid_fix (ulp fmt q2)) by apply ulp_pos.
      apply on_grid_mono; [apply ulp_pos|]. by rewrite <-HB2.
Qed.

Lemma round_pos_nonneg fmt q : 0 < q -> 0 <= round_pos fmt q.
Proof.
  intros Hq. rewrite round_pos_on_grid. unfold on_grid.
  apply Qmult_le_0_compat; [|apply Qlt_le_weak, ulp_pos].
  change 0 with (inject_Z 0). rewrite <-Zle_Qle.
  rewrite <-(round_half_even_Z 0). apply round_half_even_mono.
  apply Qlt_le_weak. apply Qlt_shift_div_l; [apply ulp_pos|].
  change (inject_Z 0) with 0. by rewrite Qmult_0_l.
Qed.


(** Rounding keeps the order. *)
Lemma round_mono fmt q1 q2 :
  (1 <= prec fmt)%Z -> q1 <= q2 -> fle (round fmt q1) (round fmt q2).
Proof.
  intros Hprec H12. unfold round.
  destruct (q1 ?= 0) eqn:E1; destruct (q2 ?= 0) eqn:E2;
    compare_cases; try (exfalso; lra); cbv zeta.
  - simpl. lra.
  - pose proof (round_pos_nonneg fmt q2 E2).
    overflow_cases; simpl; done.
  - assert (0 < - q1) as Hn by lra.
    pose proof (round_pos_nonneg fmt (- q1) Hn).
    overflow_cases; simpl; [done|lra].
  - assert (0 < - q1) as Hn1 by lra. assert (0 < - q2) as Hn2 by lra.
    assert (- q2 <= - q1) as Hle by lra.
    pose proof (round_pos_mono fmt _ _ Hprec Hn2 Hle) as Hm.
    overflow_cases; simpl; try done; lra.
  - assert (0 < - q1) as Hn by lra.
    pose proof (round_pos_nonneg fmt (- q1) Hn).
    pose proof (round_pos_nonneg fmt q2 E2).
    overflow_cases; simpl; try done; lra.
  - pose proof (round_pos_mono fmt _ _ Hprec E1 H12) as Hm.
    overflow_cases; simpl; try done; lra.
Qed.

(** Rounding respects [==]. *)
Lemma round_pos_eq fmt q1 q2 :
  0 < q1 -> q1 == q2 -> round_pos fmt q1 = round_pos fmt q2.
Proof.
  intros Hpos Heq. unfold round_pos.
  rewrite (ilog2_eq q1 q2 Hpos Heq). apply Qred_complete. by rewrite Heq.
Qed.

Lemma round_eq fmt q1 q2 : q1 == q2 -> round fmt q1 = round fmt q2.
Proof.
  intros Heq. unfold round. rewrite <-Heq.
  destruct (q1 ?= 0) eqn:E; compare_cases; [done| |].
  - assert (round_pos fmt (- q1) = round_pos fmt (- q2)) as ->; [|done].
    apply round_pos_eq; [lra|by rewrite Heq].
  - by rewrite (round_pos_eq fmt q1 q2 E Heq).
Qed.

Lemma round_pos_upper fmt q :
  (1 <= prec fmt)%Z -> 0 < q ->
  round_pos fmt q <= pow2 (Z.max (ilog2 q) (emin fmt) + 1).
Proof.
  intros Hprec Hq. rewrite round_pos_on_grid.
  set (e := Z.max (ilog2 q) (emin fmt)).
  assert (pow2 (e + 1) == inject_Z (2 ^ prec fmt) * ulp fmt q) as HB.
  { unfold ulp. fold e. rewrite <-pow2_multiple by lia.
    by replace (e - (prec fmt - 1) + prec fmt)%Z with (e + 1)%Z by lia. }
  rewrite HB, <-(on_grid_fix (ulp fmt q)) by apply ulp_pos.
  apply on_grid_mono; [apply ulp_pos|]. rewrite <-HB.
  destruct (ilog2_spec q Hq) as [_ Hup]. apply Qlt_le_weak.
  eapply Qlt_le_trans; [exact Hup|]. apply pow2_le. lia.
Qed.

Lemma round_pos_lower fmt q :
  (1 <= prec fmt)%Z -> 0 < q -> (emin fmt <= ilog2 q)%Z ->
  pow2 (ilog2 q) <= round_pos fmt q.
Proof.
  intros Hprec Hq Hnormal. rewrite round_pos_on_grid.
  assert (pow2 (ilog2 q) == inject_Z (2 ^ (prec fmt - 1)) * ulp fmt q) as HB.
  { unfold ulp. rewrite Z.max_l by lia. rewrite <-pow2_multiple by lia.
    by replace (ilog2 q - (prec fmt - 1) + (prec fmt - 1))%Z
      with (ilog2 q) by lia. }
  rewrite HB, <-(on_grid_fix (ulp fmt q)) by apply ulp_pos.
  apply on_grid_mono; [apply ulp_pos|]. rewrite <-HB.
  by apply ilog2_spec.
Qed.

(** A value that rounding produced is left as it is by rounding. *)
Lemma round_pos_idem fmt q :
  (1 <= prec fmt)%Z -> 0 < q -> 0 < round_pos fmt q ->
  round_pos fmt (round_pos fmt q) == round_pos fmt q.
Proof.
  intros Hprec Hq Hr.
  set (r := round_pos fmt q) in *.
  set (e := Z.max (ilog2 q) (emin fmt)).
  pose proof (round_pos_upper fmt q Hprec Hq) as Hup. fold r e in Hup.
  assert (r == inject_Z (round_half_even (q / ulp fmt q)) * ulp fmt q) as Hgrid.
  { unfold r. by rewrite round_pos_on_grid. }
  set (n := round_half_even (q / ulp fmt q)) in *.
  rewrite (round_pos_on_grid fmt r).
  destruct (Qlt_le_dec r (pow2 (e + 1))) as [Hlt|Hge].
  - (* same spacing *)
    assert (ulp fmt r = ulp fmt q) as ->.
    { unfold ulp. fold e. f_equal. f_equal.
      destruct (ilog2_spec r Hr) as [Hl _].
      assert (pow2 (ilog2 r) < pow2 (e + 1)) as H by lra.
      apply pow2_lt_inv in H.
      destruct (Z.le_gt_cases (emin fmt) (ilog2 q)) as [Hn|Hs].
      + pose proof (round_pos_lower fmt q Hprec Hq Hn) as Hlow. fold r in Hlow.
        destruct (ilog2_spec r Hr) as [_ Hu].
        assert (pow2 (ilog2 q) < pow2 (ilog2 r + 1)) as H' by lra.
        apply pow2_lt_inv in H'. lia.
      + lia. }
    rewrite Hgrid. by apply on_grid_fix, ulp_pos.
  - (* rounded up to the next power of two *)
    assert (r == pow2 (e + 1)) as Hr2 by lra.
    assert (ilog2 r = (e + 1)%Z) as Hil.
    { apply ilog2_unique. rewrite Hr2. split; [lra|]. apply pow2_lt. lia. }
    assert (r == inject_Z (2 ^ (prec fmt - 1)) * ulp fmt r) as Hg'.
    { unfold ulp. rewrite Hil, Z.max_l by lia.
      rewrite <-pow2_multiple by lia. rewrite Hr2.
      by replace (e + 1 - (prec fmt - 1) + (prec fmt - 1))%Z
        with (e + 1)%Z by lia. }
    rewrite Hg' at 2 3. by apply on_grid_fix, ulp_pos.
Qed.

(** So does [round]: a finite value of the format rounds to itself. *)
Lemma round_idem fmt q r :
  (1 <= prec fmt)%Z -> round fmt q = Fin r ->
  ∃ r', round fmt r = Fin r' ∧ r' == r.
Proof.
  intros Hprec. unfold round at 1.
  destruct (q ?= 0) eqn:E; compare_cases; cbv zeta.
  - intros [= <-]. by exists 0.
  - assert (0 < - q) as Hq by lra.
    pose proof (round_pos_nonneg fmt (- q) Hq) as H0.
    pose proof (round_pos_idem fmt (- q) Hprec Hq) as Hid.
    destruct (Qle_bool _ (round_pos fmt (- q))) eqn:B; [done|].
    intros [= <-]. revert H0 Hid B.
    generalize (round_pos fmt (- q)). intros r0 H0 Hid B.
    destruct (Qlt_le_dec 0 r0) as [Hpos|Hzero].
    + specialize (Hid Hpos). unfold round.
      assert ((- r0 ?= 0) = Lt) as ->.
      { apply (proj1 (Qlt_alt _ _)). lra. }
      cbv zeta.
      assert (round_pos fmt (- - r0) = round_pos fmt r0) as ->.
      { apply round_pos_eq; [lra|ring]. }
      assert (Qle_bool (pow2 (emax fmt + 1)) (round_pos fmt r0) = false) as ->.
      { rewrite <-B. apply eq_true_iff_eq. rewrite !Qle_bool_iff.
        by rewrite Hid. }
      eexists. split; [done|]. by rewrite Hid.
    + assert (r0 == 0) as Hz by lra.
      rewrite (round_eq fmt (- r0) 0) by (rewrite Hz; ring).
      exists 0. split; [done|]. rewrite Hz. ring.
  - pose proof (round_pos_nonneg fmt q E) as H0.
    pose proof (round_pos_idem fmt q Hprec E) as Hid.
    destruct (Qle_bool _ (round_pos fmt q)) eqn:B; [done|].
    intros [= <-]. revert H0 Hid B.
    generalize (round_pos fmt q). intros r0 H0 Hid B.
    destruct (Qlt_le_dec 0 r0) as [Hpos|Hzero].
    + specialize (Hid Hpos). unfold round.
      assert ((r0 ?= 0) = Gt) as ->.
      { by apply (proj1 (Qgt_alt _ _)). }
      cbv zeta.
      assert (Qle_bool (pow2 (emax fmt + 1)) (round_pos fmt r0) = false) as ->.
      { rewrite <-B. apply eq_true_iff_eq. rewrite !Qle_bool_iff.
        by rewrite Hid. }
      eexists. split; [done|]. done.
    + assert (r0 == 0) as Hz by lra.
      rewrite (round_eq fmt r0 0) by done.
      exists 0. split; [done|]. by rewrite Hz.
Qed.

(** Relative error of rounding a value of the normal range. *)
Lemma round_pos_rel fmt q :
  (1 <= prec fmt)%Z -> pow2 (emin fmt) <= q ->
  Qabs (round_pos fmt q - q) <= pow2 (- prec fmt) * q.
Proof.
  intros Hprec Hq. pose proof (pow2_pos (emin fmt)) as Hp.
  assert (0 < q) as Hpos by lra.
  rewrite round_pos_on_grid.
  eapply Qle_trans; [apply on_grid_near, ulp_pos|].
  assert (emin fmt <= ilog2 q)%Z as Hn.
  { destruct (ilog2_spec q Hpos) as [_ Hu].
    assert (pow2 (emin fmt) < pow2 (ilog2 q + 1)) as H by lra.
    apply pow2_lt_inv in H. lia. }
  unfold ulp. rewrite Z.max_l by lia.
  assert (pow2 (ilog2 q - (prec fmt - 1)) * (1 # 2)
          == pow2 (- prec fmt) * pow2 (ilog2 q)) as ->.
  { rewrite <-pow2_add.
    replace (ilog2 q - (prec fmt - 1))%Z
      with ((- prec fmt + ilog2 q) + 1)%Z by lia.
    rewrite pow2_succ. field. }
  apply Qmult_le_l; [apply pow2_pos|]. by apply ilog2_spec.
Qed.

(** In the normal range rounding gives a finite value, off by no more
    than the fraction [2^-prec] of the value. *)
Lemma round_rel fmt q :
  (1 <= prec fmt)%Z ->
  pow2 (emin fmt) <= Qabs q -> Qabs q <= pow2 (emax fmt) ->
  ∃ r, round fmt q = Fin r ∧ Qabs (r - q) <= pow2 (- prec fmt) * Qabs q.
Proof.
  intros Hprec Hlo Hhi.
  pose proof (pow2_pos (emin fmt)) as Hp.
  assert (pow2 (- prec fmt) <= 1 # 2) as Hhalf.
  { change (1 # 2) with (pow2 (-1)). apply pow2_le. lia. }
  assert (∀ p, pow2 (emin fmt) <= p -> p <= pow2 (emax fmt) ->
            Qle_bool (pow2 (emax fmt + 1)) (round_pos fmt p) = false ∧
            Qabs (round_pos fmt p - p) <= pow2 (- prec fmt) * p) as Hpos.
  { intros p Hl Hu. pose proof (round_pos_rel fmt p Hprec Hl) as Hrel.
    split; [|done]. apply not_true_iff_false. rewrite Qle_bool_iff.
    apply Qlt_not_le. rewrite pow2_succ.
    apply Qabs_Qle_condition in Hrel as [_ Hrel].
    assert (pow2 (- prec fmt) * p <= (1 # 2) * p) as H.
    { apply Qmult_le_compat_r; lra. }
    lra. }
  unfold round. destruct (q ?= 0) eqn:E; compare_cases; cbv zeta.
  - rewrite E in Hlo. change (Qabs 0) with 0 in Hlo. lra.
  - rewrite (Qabs_neg q) in * by lra.
    destruct (Hpos (- q) Hlo Hhi) as [-> Hrel].
    eexists. split; [done|].
    setoid_replace (- round_pos fmt (- q) - q)
      with (- (round_pos fmt (- q) - - q)) using relation Qeq by ring.
    rewrite Qabs_opp, (Qabs_neg q) by lra. exact Hrel.
  - rewrite (Qabs_pos q) in * by lra.
    destruct (Hpos q Hlo Hhi) as [-> Hrel].
    eexists. split; [done|]. rewrite (Qabs_pos q) by lra. exact Hrel.
Qed.

End Rounding.

(** ** The monad *)

Lemma bind_Ok {A B} (w : list log_line) (a : A) (k : A → M B) :
  ((w, Ok a) ≫= k) = (w ++ (k a).1, (k a).2).
Proof. unfold mbind, M_bind. by destruct (k a). Qed.

Lemma bind_Raise {A B} (w : list log_line) (e : exn) (k : A → M B) :
  ((w, Raise e) ≫= k) = (w, Raise e).
Proof. reflexivity. Qed.

Lemma bind_inv_Ok {A B} (m : M A) (k : A → M B) w b :
  (m ≫= k) = (w, Ok b) →
  ∃ w1 a w2, m = (w1, Ok a) ∧ k a = (w2, Ok b) ∧ w = w1 ++ w2.
Proof.
  destruct m as [w1 [a|e]]; [|by rewrite bind_Raise].
  rewrite bind_Ok. destruct (k a) as [w2 r] eqn:Hk. simpl.
  intros [= <- ->]. by exists w1, a, w2.
Qed.

(** ** [str] *)

Lemma int_of_str_str (n : Z) : int_of_str (str n) = Some n.
Proof.
  unfold int_of_str, str. rewrite NilZero.isi.
  - simpl. f_equal. apply DecimalZ.of_to.
  - destruct n; simpl; try discriminate.
    intros [= H]. by apply Unsigned.to_uint_nonnil in H.
  - destruct n; simpl; try discriminate.
    intros [= H]. by apply Unsigned.to_uint_nonnil in H.
Qed.

(** ** The worker, branch by branch *)

Lemma if_true_Some {V} (o : option (gmap Z V)) d :
  if_true o = Some d ↔ o = Some d ∧ d ≠ ∅.
Proof.
  unfold if_true. destruct o as [d'|].
  - case_bool_decide as Hd; split.
    + discriminate.
    + intros [[= ->] Hne]. by destruct Hne.
    + by intros [= ->].
    + by intros [[= ->] _].
  - split; [discriminate|]. by intros [? _].
Qed.

Lemma if_true_None {V} (o : option (gmap Z V)) :
  if_true o = None ↔ o = None ∨ o = Some ∅.
Proof.
  unfold if_true. destruct o as [d'|].
  - case_bool_decide as Hd; split.
    + intros _. right. by rewrite Hd.
    + done.
    + discriminate.
    + intros [|[= ->]]; [discriminate|by destruct Hd].
  - split; [by left|done].
Qed.

Lemma get_poly_data_absent env im_id store cls t e :
  store !! mask_name im_id = None →
  get_poly_data env im_id store cls t e =
    ([Info (im_id +:+ " empty")],
     Ok (im_id, str (cls + 1), "MULTIPOLYGON EMPTY")).
Proof. intros H. unfold get_poly_data. by rewrite H. Qed.

Lemma get_poly_data_present env im_id store cls t e saved :
  store !! mask_name im_id = Some saved →
  get_poly_data env im_id store cls t e =
    (logger_info (Info im_id);;
     pred_poly ← get_polygons env im_id (np_gt saved t) e cls;
     match if_true (get_wkt_data env !! im_id) with
     | Some train_polygons =>
         train_poly ← getitem train_polygons (cls + 1);
         log_jaccard env im_id pred_poly train_poly (np_gt saved t) t;;
         out ← getitem train_polygons (cls + 1);
         mret (im_id, str (cls + 1), out)
     | None => mret (im_id, str (cls + 1), wkt_dumps env pred_poly)
     end).
Proof. intros H. unfold get_poly_data. by rewrite H. Qed.

(** Simplifies the binds of a worker whose calls have known results. *)
Ltac run_binds :=
  repeat (rewrite ?bind_Ok, ?bind_Raise; cbn [fst snd app];
          unfold logger_info, getitem, lift_option, raise, mret, M_ret).


(** C3: when the mask file of an image is absent, the worker returns the
    row [(im_id, str(cls + 1), "MULTIPOLYGON EMPTY")] and raises nothing,
    whatever the collaborators are (the extractor, the scaler and the
    ground-truth table are not consulted: the result does not mention
    them), and the polygon loop goes on with the remaining ids. *)
Theorem get_poly_data_mask_absent env args im_id store cls t e rest :
  store !! mask_name im_id = None →
  get_poly_data env im_id store cls t e =
    ([Info (im_id +:+ " empty")],
     Ok (im_id, str (cls + 1), "MULTIPOLYGON EMPTY")) ∧
  write_rows env args store (im_id :: rest) =
    ((im_id, str (hps_cls args + 1), "MULTIPOLYGON EMPTY")
       :: (write_rows env args store rest).1,
     (Info (im_id +:+ " empty") :: (write_rows env args store rest).2.1,
      (write_rows env args store rest).2.2)).
Proof.
  intros H. split; [by apply get_poly_data_absent|].
  cbn [write_rows]. rewrite get_poly_data_absent by done.
  by destruct (write_rows env args store rest) as [rows [w r]].
Qed.

(** C1, as the code has it: for an image whose mask file exists and whose
    polygons were extracted, the worker returns the ground-truth WKT of
    class [cls + 1] when the table's entry for the image is non-empty,
    holds that class and the Jaccard line could be logged; it returns the
    WKT of the predicted polygons when the table has no entry, or an
    empty one, for the image. *)
Theorem get_poly_data_emits env im_id store cls t e saved w1 pred :
  store !! mask_name im_id = Some saved →
  get_polygons env im_id (np_gt saved t) e cls = (w1, Ok pred) →
  (∀ d gt w2,
     get_wkt_data env !! im_id = Some d → d ≠ ∅ →
     d !! (cls + 1) = Some gt →
     log_jaccard env im_id pred gt (np_gt saved t) t = (w2, Ok tt) →
     get_poly_data env im_id store cls t e =
       (Info im_id :: w1 ++ w2, Ok (im_id, str (cls + 1), gt))) ∧
  (get_wkt_data env !! im_id = None ∨ get_wkt_data env !! im_id = Some ∅ →
   get_poly_data env im_id store cls t e =
     (Info im_id :: w1, Ok (im_id, str (cls + 1), wkt_dumps env pred))).
Proof.
  intros Hs Hp. rewrite (get_poly_data_present _ _ _ _ _ _ _ Hs), Hp.
  split.
  - intros d gt w2 Hd Hne Hgt Hlog.
    assert (if_true (get_wkt_data env !! im_id) = Some d) as ->
      by by apply if_true_Some.
    run_binds. rewrite Hgt. run_binds. rewrite Hlog. run_binds.
    by rewrite !app_nil_r.
  - intros Hd. apply if_true_None in Hd as ->. run_binds.
    by rewrite !app_nil_r.
Qed.

(** C9, as the code has it: for an image whose mask file exists and whose
    polygons were extracted, a non-empty table entry without the key
    [cls + 1] makes the worker raise [KeyError]; no row is returned. *)
Theorem get_poly_data_missing_class env im_id store cls t e saved w1 pred d :
  store !! mask_name im_id = Some saved →
  get_polygons env im_id (np_gt saved t) e cls = (w1, Ok pred) →
  get_wkt_data env !! im_id = Some d → d ≠ ∅ →
  d !! (cls + 1) = None →
  get_poly_data env im_id store cls t e =
    (Info im_id :: w1, Raise (KeyError (cls + 1))).
Proof.
  intros Hs Hp Hd Hne Hk.
  rewrite (get_poly_data_present _ _ _ _ _ _ _ Hs), Hp.
  assert (if_true (get_wkt_data env !! im_id) = Some d) as ->
    by by apply if_true_Some.
  run_binds. rewrite Hk. run_binds. by rewrite !app_nil_r.
Qed.

Lemma get_poly_data_row env im_id store cls t e w r :
  get_poly_data env im_id store cls t e = (w, Ok r) →
  r.1.1 = im_id ∧ r.1.2 = str (cls + 1) ∧
  ((store !! mask_name im_id = None ∧ r.2 = "MULTIPOLYGON EMPTY") ∨
   (is_Some (store !! mask_name im_id) ∧
    ∃ d, if_true (get_wkt_data env !! im_id) = Some d ∧
         d !! (cls + 1) = Some r.2) ∨
   (is_Some (store !! mask_name im_id) ∧
    if_true (get_wkt_data env !! im_id) = None ∧
    ∃ pred, r.2 = wkt_dumps env pred)).
Proof.
  intros H.
  destruct (store !! mask_name im_id) as [saved|] eqn:Hs.
  - rewrite (get_poly_data_present _ _ _ _ _ _ _ Hs) in H.
    apply bind_inv_Ok in H as (w0 & [] & w' & _ & H & _).
    apply bind_inv_Ok in H as (w1 & pred & w2 & Hp & H & _).
    destruct (if_true (get_wkt_data env !! im_id)) as [d|] eqn:Hd.
    + apply bind_inv_Ok in H as (? & gt1 & ? & _ & H & _).
      apply bind_inv_Ok in H as (? & [] & ? & _ & H & _).
      apply bind_inv_Ok in H as (? & out & ? & Hout & H & _).
      injection H as _ <-. cbn [fst snd] in *.
      unfold getitem, lift_option in Hout.
      destruct (d !! (cls + 1)) as [v|] eqn:Hv; [|done].
      injection Hout as _ <-. naive_solver.
    + injection H as _ <-. cbn [fst snd] in *. naive_solver.
  - rewrite get_poly_data_absent in H by done.
    injection H as _ <-. cbn [fst snd] in *. naive_solver.
Qed.

(** C7: every row the worker returns carries the class as the decimal text
    of [cls + 1], the 0-based class plus one, in each of its three
    outcomes: mask file absent, ground truth used, prediction used; so
    does every row the polygon loop of [main] writes. *)
Theorem poly_type_one_based env args store :
  (∀ im_id cls t e w r,
     get_poly_data env im_id store cls t e = (w, Ok r) →
     r.1.1 = im_id ∧ r.1.2 = str (cls + 1) ∧
     int_of_str r.1.2 = Some (cls + 1) ∧
     ((store !! mask_name im_id = None ∧ r.2 = "MULTIPOLYGON EMPTY") ∨
      (is_Some (store !! mask_name im_id) ∧
       ∃ d, if_true (get_wkt_data env !! im_id) = Some d ∧
            d !! (cls + 1) = Some r.2) ∨
      (is_Some (store !! mask_name im_id) ∧
       if_true (get_wkt_data env !! im_id) = None ∧
       ∃ pred, r.2 = wkt_dumps env pred))) ∧
  (∀ ids, Forall (λ r : row, r.1.2 = str (hps_cls args + 1))
            (write_rows env args store ids).1).
Proof.
  split.
  - intros im_id cls t e w r H.
    apply get_poly_data_row in H as (H1 & H2 & H3).
    split_and!; [done|done| |done]. rewrite H2. apply int_of_str_str.
  - induction ids as [|im_id rest IH]; [constructor|].
    cbn [write_rows].
    destruct (get_poly_data env im_id store (hps_cls args) (threshold args)
                (epsilon args)) as [w [r|err]] eqn:Hrow; [|constructor].
    destruct (write_rows env args store rest) as [rows [w' res]].
    constructor; [|done].
    by apply get_poly_data_row in Hrow as (_ & ? & _).
Qed.

(** ** The mask-prediction loop *)

Lemma predict_one_skip env store im_id :
  is_Some (store !! mask_name im_id) →
  predict_one env store im_id =
    ([Info ("Skip " +:+ im_id +:+ ": already exists")], Ok store).
Proof.
  intros H. unfold predict_one. by rewrite bool_decide_eq_true_2.
Qed.

Lemma predict_one_frame env store im_id w store' p saved :
  predict_one env store im_id = (w, Ok store') →
  store !! p = Some saved → store' !! p = Some saved.
Proof.
  unfold predict_one. case_bool_decide as Hex.
  - run_binds. by intros [= _ <-].
  - intros H Hp.
    apply bind_inv_Ok in H as (? & [] & ? & _ & H & _).
    apply bind_inv_Ok in H as (? & raw & ? & _ & H & _).
    case_bool_decide; [|done]. injection H as _ <-.
    rewrite lookup_insert_ne; [done|].
    intros <-. apply Hex. by rewrite Hp.
Qed.

Lemma predict_masks_frame env ids store p saved :
  store !! p = Some saved →
  (predict_masks env ids store).1 !! p = Some saved.
Proof.
  revert store. induction ids as [|im_id rest IH]; intros store Hp; [done|].
  cbn [predict_masks].
  destruct (predict_one env store im_id) as [w [store'|err]] eqn:Hone;
    [|done].
  specialize (IH store' (predict_one_frame _ _ _ _ _ _ _ Hone Hp)).
  by destruct (predict_masks env rest store') as [final [w' r]].
Qed.

Lemma predict_one_keeps env store im_id w store' p :
  predict_one env store im_id = (w, Ok store') →
  is_Some (store !! p) → is_Some (store' !! p).
Proof.
  intros H [saved Hp]. exists saved. by eapply predict_one_frame.
Qed.

Lemma predict_one_file env store im_id w store' :
  predict_one env store im_id = (w, Ok store') →
  is_Some (store' !! mask_name im_id).
Proof.
  unfold predict_one. case_bool_decide as Hex.
  - run_binds. by intros [= _ <-].
  - intros H.
    apply bind_inv_Ok in H as (? & [] & ? & _ & H & _).
    apply bind_inv_Ok in H as (? & raw & ? & _ & H & _).
    case_bool_decide; [|done]. injection H as _ <-.
    rewrite lookup_insert_eq. by eexists.
Qed.

Lemma predict_masks_files env ids store final w :
  predict_masks env ids store = (final, (w, Ok tt)) →
  (∀ p, is_Some (store !! p) → is_Some (final !! p)) ∧
  Forall (λ im_id, is_Some (final !! mask_name im_id)) ids.
Proof.
  revert store w. induction ids as [|im_id rest IH]; intros store w.
  - intros [= <- _]. by split.
  - cbn [predict_masks].
    destruct (predict_one env store im_id) as [w1 [store'|err]] eqn:Hone;
      [|done].
    destruct (predict_masks env rest store') as [final' [w' r]] eqn:Hrest.
    intros [= -> _ ->]. destruct (IH _ _ Hrest) as [Hkeep Hall].
    split.
    + intros p Hp. eapply Hkeep, predict_one_keeps; done.
    + constructor; [|done]. eapply Hkeep, predict_one_file; done.
Qed.

Lemma predict_masks_all_present env ids store :
  Forall (λ im_id, is_Some (store !! mask_name im_id)) ids →
  (predict_masks env ids store).1 = store ∧
  (predict_masks env ids store).2.2 = Ok tt.
Proof.
  induction 1 as [|im_id rest Hid _ IH]; [done|].
  cbn [predict_masks]. rewrite predict_one_skip by done.
  by destruct (predict_masks env rest store) as [final [w r]].
Qed.

(** Resuming after a complete run: every id is skipped and the directory
    stays as the first run left it. *)
Lemma predict_masks_rerun env ids store final w :
  predict_masks env ids store = (final, (w, Ok tt)) →
  (predict_masks env ids final).1 = final ∧
  (predict_masks env ids final).2.2 = Ok tt.
Proof.
  intros H. apply predict_masks_all_present.
  by apply predict_masks_files in H as [_ ?].
Qed.

Lemma main_store env args store :
  (main env args store).1.1 =
  (predict_masks env (sorted (to_predict env args)) store).1.
Proof.
  unfold main.
  destruct (predict_masks env (sorted (to_predict env args)) store)
    as [final [w [[]|err]]]; [|done].
  destruct (masks_only args); [done|].
  by destruct (write_rows env args final (to_output env args))
    as [rows [w' r']].
Qed.

(** C8: an image whose mask file is already in the directory is skipped:
    its turn of the loop only logs, calls neither the image loader nor the
    model, and leaves the whole directory as it was; and whatever the loop
    and the rest of [main] do on the other ids, the stored mask stays the
    same. *)
Theorem predict_masks_skips_existing env store im_id saved :
  store !! mask_name im_id = Some saved →
  predict_one env store im_id =
    ([Info ("Skip " +:+ im_id +:+ ": already exists")], Ok store) ∧
  (∀ ids, (predict_masks env ids store).1 !! mask_name im_id = Some saved) ∧
  (∀ args, (main env args store).1.1 !! mask_name im_id = Some saved).
Proof.
  intros H. split_and!.
  - apply predict_one_skip. by rewrite H.
  - intros ids. by apply predict_masks_frame.
  - intros args. rewrite main_store. by apply predict_masks_frame.
Qed.

(** ** Thresholding *)

Lemma gt_spec t a : gt t a = true ↔ (t < a)%Q.
Proof.
  unfold gt. rewrite (Qgt_alt a t).
  destruct (a ?= t)%Q; naive_solver.
Qed.

Lemma gt_f_antitone t1 t2 a :
  fle t1 t2 → gt_f t2 a = true → gt_f t1 a = true.
Proof.
  destruct t1 as [x| | |], t2 as [y| | |]; simpl; try done.
  rewrite !gt_spec. intros Hle Hlt. by eapply Qle_lt_trans.
Qed.

Lemma np_gt_shape (mask : ndarray Q) t : shape (np_gt mask t) = shape mask.
Proof.
  unfold shape, np_gt. cbv zeta. rewrite length_fmap.
  destruct mask; [done|]. simpl. by rewrite length_fmap.
Qed.

Lemma np_gt_pixel (mask : ndarray Q) t i j :
  pixel (np_gt mask t) i j = gt_f (round binary16 t) <$> pixel mask i j.
Proof.
  unfold pixel, np_gt. cbv zeta. rewrite list_lookup_fmap.
  destruct (mask !! i) as [r|]; [|done]. simpl.
  by rewrite list_lookup_fmap.
Qed.

(** Below 65000 a threshold has a finite half float, no further than 16
    away (half the spacing of the greatest half floats). *)
Lemma round_binary16_finite t :
  (Qabs t < 65000)%Q →
  ∃ t16, round binary16 t = Fin t16 ∧ (Qabs (t16 - t) <= 16)%Q.
Proof.
  intros Ht.
  assert (∀ q, (0 < q)%Q → (q < 65000)%Q →
            Qle_bool (pow2 (emax binary16 + 1)) (round_pos binary16 q)
              = false ∧
            (Qabs (round_pos binary16 q - q) <= 16)%Q) as Hpos.
  { intros q Hq Hlt.
    assert (ilog2 q < 16) as Hlog.
    { apply pow2_lt_inv. destruct (ilog2_spec q Hq) as [Hl _].
      eapply Qle_lt_trans; [exact Hl|].
      eapply Qlt_trans; [exact Hlt|]. reflexivity. }
    assert (ulp binary16 q <= 32)%Q as Hulp.
    { change 32%Q with (pow2 5). apply pow2_le.
      change (emin binary16) with (-14). change (prec binary16) with 11.
      lia. }
    pose proof (on_grid_near (ulp binary16 q) q (ulp_pos _ _)) as Hnear.
    rewrite <-round_pos_on_grid in Hnear.
    assert (Qabs (round_pos binary16 q - q) <= 16)%Q as H16 by lra.
    split; [|done]. apply not_true_iff_false. rewrite Qle_bool_iff.
    apply Qlt_not_le. apply Qabs_Qle_condition in H16 as [_ H16].
    change (pow2 (emax binary16 + 1)) with 65536%Q. lra. }
  unfold round. destruct (t ?= 0)%Q eqn:E; compare_cases; cbv zeta.
  - exists 0%Q. split; [done|]. rewrite E. done.
  - rewrite (Qabs_neg t) in Ht by lra.
    destruct (Hpos (- t)%Q) as [-> Hnear]; [lra|lra|].
    eexists. split; [done|].
    setoid_replace (- round_pos binary16 (- t) - t)%Q
      with (- (round_pos binary16 (- t) - - t))%Q using relation Qeq by ring.
    by rewrite Qabs_opp.
  - rewrite (Qabs_pos t) in Ht by lra.
    destruct (Hpos t) as [-> Hnear]; [lra|lra|].
    eexists. by split.
Qed.

(** C10, amended: [mask > threshold] builds a boolean array of the same
    shape.  The threshold is first converted to a half float, the dtype
    of the saved scores; a pixel is on exactly when its score is strictly
    above the converted threshold, and a score equal to it is off.  For a
    threshold of magnitude below 65000 the converted threshold is finite
    and within 16 of the threshold; for a threshold that is a half float
    itself (0.5, the default, is one) the comparison is with the
    threshold as given.  This array is what the worker hands to the
    extractor and to the Jaccard line, and the loaded array is only read:
    the directory of saved masks that [main] ends with is the one the
    prediction loop left. *)
Theorem np_gt_float16 (mask : ndarray Q) (t : Q) :
  shape (np_gt mask t) = shape mask ∧
  ((Qabs t < 65000)%Q →
   ∃ t16, round binary16 t = Fin t16 ∧ (Qabs (t16 - t) <= 16)%Q ∧
     ∀ i j a, pixel mask i j = Some a →
       (pixel (np_gt mask t) i j = Some true ↔ (t16 < a)%Q) ∧
       ((a == t16)%Q → pixel (np_gt mask t) i j = Some false)) ∧
  (∀ t16, round binary16 t = Fin t16 → (t16 == t)%Q →
     ∀ i j a, pixel mask i j = Some a →
       (pixel (np_gt mask t) i j = Some true ↔ (t < a)%Q) ∧
       ((a == t)%Q → pixel (np_gt mask t) i j = Some false)) ∧
  (∀ env im_id store cls e,
     store !! mask_name im_id = Some mask →
     get_poly_data env im_id store cls t e =
       (logger_info (Info im_id);;
        pred_poly ← get_polygons env im_id (np_gt mask t) e cls;
        match if_true (get_wkt_data env !! im_id) with
        | Some train_polygons =>
            train_poly ← getitem train_polygons (cls + 1);
            log_jaccard env im_id pred_poly train_poly (np_gt mask t) t;;
            out ← getitem train_polygons (cls + 1);
            mret (im_id, str (cls + 1), out)
        | None => mret (im_id, str (cls + 1), wkt_dumps env pred_poly)
        end)) ∧
  (∀ env args store,
     (main env args store).1.1 =
     (predict_masks env (sorted (to_predict env args)) store).1).
Proof.
  assert (∀ t16, round binary16 t = Fin t16 →
            ∀ i j a, pixel mask i j = Some a →
              (pixel (np_gt mask t) i j = Some true ↔ (t16 < a)%Q) ∧
              ((a == t16)%Q → pixel (np_gt mask t) i j = Some false))
    as Hfin.
  { intros t16 Hr i j a Ha. rewrite np_gt_pixel, Hr, Ha. simpl. split.
    - rewrite <-gt_spec. split; [by intros [= ->]|by intros ->].
    - intros Heq. f_equal. apply not_true_is_false.
      rewrite gt_spec, Heq. apply Qlt_irrefl. }
  split_and!.
  - apply np_gt_shape.
  - intros Ht. destruct (round_binary16_finite t Ht) as (t16 & Hr & Hnear).
    exists t16. split_and!; [done|done|by apply Hfin].
  - intros t16 Hr Heq i j a Ha. destruct (Hfin t16 Hr i j a Ha) as [H1 H2].
    split.
    + by rewrite H1, Heq.
    + intros Hat. apply H2. by rewrite Heq.
  - intros env im_id store cls e. apply get_poly_data_present.
  - apply main_store.
Qed.

(** ** Rescaling *)

Lemma map_points_map_points f h (g : MultiPolygon) :
  map_points f (map_points h g) = map_points (f ∘ h) g.
Proof.
  unfold map_points. rewrite <-list_fmap_compose.
  apply list_fmap_ext; intros _ p _; simpl. f_equal.
  - by rewrite <-list_fmap_compose.
  - rewrite <-list_fmap_compose. apply list_fmap_ext; intros _ r _; simpl.
    by rewrite <-list_fmap_compose.
Qed.


Lemma map_points_id f (g : MultiPolygon) :
  (∀ p, pt_eq (f p) p) → geom_eq (map_points f g) g.
Proof.
  intros Hf. unfold geom_eq, map_points.
  apply Forall2_fmap_l, Forall_Forall2_diag, Forall_forall; intros p _.
  split; simpl.
  - apply Forall2_fmap_l, Forall_Forall2_diag, Forall_forall; auto.
  - apply Forall2_fmap_l, Forall_Forall2_diag, Forall_forall; intros r _.
    apply Forall2_fmap_l, Forall_Forall2_diag, Forall_forall; auto.
Qed.

Lemma geom_eq_coords (g h : MultiPolygon) :
  geom_eq g h → Forall2 pt_eq (coords g) (coords h).
Proof.
  unfold geom_eq, coords. induction 1 as [|p q g h [He Hi] _ IH]; simpl.
  - constructor.
  - apply Forall2_app; [apply Forall2_app; [done|]|done].
    clear He. induction Hi; simpl; [constructor|by apply Forall2_app].
Qed.

Lemma get_polygons_inv env im_id mask e cls w g :
  get_polygons env im_id mask e cls = (w, Ok g) →
  ∃ xs ys, get_scalers env im_id (shape mask) = Some (xs, ys) ∧
           ¬ (xs == 0)%Q ∧ ¬ (ys == 0)%Q ∧
           g = affinity_scale (mask_to_polygons env mask e)
                 (1 / xs) (1 / ys) (0, 0)%Q.
Proof.
  unfold get_polygons, py_div.
  destruct (get_scalers env im_id (shape mask)) as [[xs ys]|]; [|done].
  run_binds.
  destruct (Qeq_bool xs 0) eqn:Hx; [done|]. run_binds.
  destruct (Qeq_bool ys 0) eqn:Hy; [done|]. run_binds.
  intros [= _ <-]. exists xs, ys.
  apply Qeq_bool_neq in Hx, Hy. done.
Qed.


(** In exact arithmetic, without rounding, scaling by [(fx, fy)] and then
    by [(1 / fx, 1 / fy)], both about the origin, gives back every
    coordinate of the multipolygon.  What holds of the doubles of the
    program is shown below, in double precision. *)
Lemma affinity_scale_inverse (P : MultiPolygon) fx fy :
  (0 < fx)%Q → (0 < fy)%Q →
  geom_eq (affinity_scale (affinity_scale P fx fy (0, 0)%Q)
             (1 / fx) (1 / fy) (0, 0)%Q) P ∧
  Forall2 (λ p q, ∀ tol, (0 <= tol)%Q →
             (Qabs (p.1 - q.1) <= tol)%Q ∧ (Qabs (p.2 - q.2) <= tol)%Q)
    (coords (affinity_scale (affinity_scale P fx fy (0, 0)%Q)
               (1 / fx) (1 / fy) (0, 0)%Q))
    (coords P).
Proof.
  intros Hx Hy.
  assert (geom_eq (affinity_scale (affinity_scale P fx fy (0, 0)%Q)
             (1 / fx) (1 / fy) (0, 0)%Q) P) as Heq.
  { unfold affinity_scale. rewrite map_points_map_points.
    apply map_points_id. intros [x y].
    split; simpl; field; intros Hz; rewrite Hz in *;
      by apply Qlt_irrefl with 0%Q. }
  split; [done|].
  eapply Forall2_impl; [by apply geom_eq_coords|].
  intros p q [H1 H2] tol Htol.
  assert (∀ a b, (a == b)%Q → (Qabs (a - b) <= tol)%Q) as Habs.
  { intros a b Hab. rewrite Hab.
    setoid_replace (b - b)%Q with 0%Q using relation Qeq by ring. done. }
  auto.
Qed.

(** *** In double precision *)

Section Doubles.
Local Open Scope Q_scope.

Lemma round_zero fmt q : q == 0 -> round fmt q = Fin 0.
Proof. intros H. by rewrite (round_eq fmt q 0 H). Qed.

(** A double plus zero is that double. *)
Lemma round_plus_zero q p :
  round binary64 q = Fin p ->
  ∃ p', round binary64 (p + 0) = Fin p' ∧ p' == p.
Proof.
  intros H. destruct (round_idem binary64 q p) as (p' & Hr & Hp); [done|done|].
  exists p'. split; [|done]. rewrite <-Hr. apply round_eq. ring.
Qed.

Lemma round_zero_plus q p :
  round binary64 q = Fin p ->
  ∃ p', round binary64 (0 + p) = Fin p' ∧ p' == p.
Proof.
  intros H. destruct (round_idem binary64 q p) as (p' & Hr & Hp); [done|done|].
  exists p'. split; [|done]. rewrite <-Hr. apply round_eq. ring.
Qed.

(** The offset of a scaling about the origin: [0 - 0 * fact] is zero for
    a finite factor. *)
Lemma scale_offset a : fsub (Fin 0) (fmul (Fin 0) (Fin a)) = Fin 0.
Proof.
  unfold fsub, fmul. rewrite (round_zero binary64 (0 * a)) by ring.
  simpl. apply round_zero. ring.
Qed.

(** A row of the matrix of a scaling about the origin, [a * x + 0 * y + 0]
    or [0 * x + a * y + 0]: the product rounded once, when it is
    finite. *)
Lemma scale_row_x a x y p :
  round binary64 (a * x) = Fin p ->
  ∃ p', fadd (fadd (fmul (Fin a) (Fin x)) (fmul (Fin 0) (Fin y)))
             (fsub (Fin 0) (fmul (Fin 0) (Fin a))) = Fin p' ∧ p' == p.
Proof.
  intros H. rewrite scale_offset. cbn [fmul]. rewrite H.
  rewrite (round_zero binary64 (0 * y)) by ring. cbn [fadd].
  destruct (round_plus_zero _ _ H) as (p1 & H1 & E1). rewrite H1. cbn [fadd].
  destruct (round_plus_zero _ _ H1) as (p2 & H2 & E2). rewrite H2.
  exists p2. split; [done|]. by rewrite E2.
Qed.

Lemma scale_row_y a x y p :
  round binary64 (a * y) = Fin p ->
  ∃ p', fadd (fadd (fmul (Fin 0) (Fin x)) (fmul (Fin a) (Fin y)))
             (fsub (Fin 0) (fmul (Fin 0) (Fin a))) = Fin p' ∧ p' == p.
Proof.
  intros H. rewrite scale_offset. cbn [fmul]. rewrite H.
  rewrite (round_zero binary64 (0 * x)) by ring. cbn [fadd].
  destruct (round_zero_plus _ _ H) as (p1 & H1 & E1). rewrite H1. cbn [fadd].
  destruct (round_plus_zero _ _ H1) as (p2 & H2 & E2). rewrite H2.
  exists p2. split; [done|]. by rewrite E2.
Qed.

(** What a scaling about the origin does to a pair of finite doubles. *)
Lemma affinity_scale64_point a e x y p q :
  round binary64 (a * x) = Fin p ->
  round binary64 (e * y) = Fin q ->
  ∃ p' q',
    affine_pt64 (Fin a) (Fin 0) (Fin 0) (Fin e)
      (fsub (Fin 0) (fmul (Fin 0) (Fin a)))
      (fsub (Fin 0) (fmul (Fin 0) (Fin e))) (Fin x, Fin y)
    = (Fin p', Fin q') ∧ p' == p ∧ q' == q.
Proof.
  intros Hp Hq. unfold affine_pt64.
  destruct (scale_row_x a x y p Hp) as (p' & -> & Ep).
  destruct (scale_row_y e x y q Hq) as (q' & -> & Eq).
  by exists p', q'.
Qed.

(** The error of a product of two approximations: of [1 / f] and of
    [f * x], each within the fraction [u]. *)
Lemma product_error u f x r p :
  0 <= u -> 0 < f ->
  Qabs (r - 1 / f) <= u * (1 / f) ->
  Qabs (p - f * x) <= u * (f * Qabs x) ->
  Qabs (r * p - x) <= (2 * u + u * u) * Qabs x.
Proof.
  intros Hu Hf Hr Hp.
  pose proof (Qabs_nonneg x) as HX.
  set (g := 1 / f) in *.
  assert (0 < g) as Hg. { unfold g. apply Qlt_shift_div_l; lra. }
  assert (f * g == 1) as Hfg. { unfold g. field. lra. }
  assert (Qabs p <= f * Qabs x + u * (f * Qabs x)) as HP.
  { setoid_replace p with (f * x + (p - f * x))
      using relation Qeq at 1 by ring.
    eapply Qle_trans; [apply Qabs_triangle|].
    rewrite Qabs_Qmult, (Qabs_pos f) by lra. lra. }
  setoid_replace (r * p - x) with ((r - g) * p + g * (p - f * x))
    using relation Qeq.
  2:{ setoid_replace x with (f * g * x)
        using relation Qeq at 1 by (rewrite Hfg; ring).
      ring. }
  eapply Qle_trans; [apply Qabs_triangle|].
  rewrite !Qabs_Qmult, (Qabs_pos g) by lra.
  assert (Qabs (r - g) * Qabs p
          <= (u * g) * (f * Qabs x + u * (f * Qabs x))) as H1.
  { apply Qmult_le_compat_nonneg; split; auto using Qabs_nonneg. }
  assert (g * Qabs (p - f * x) <= g * (u * (f * Qabs x))) as H2.
  { apply Qmult_le_l; lra. }
  setoid_replace ((2 * u + u * u) * Qabs x)
    with ((f * g) * ((2 * u + u * u) * Qabs x))
    using relation Qeq by (rewrite Hfg; ring).
  lra.
Qed.

Lemma normal64_spec q :
  normal64 q = true ->
  q == 0 ∨ (pow2 (-1021) <= Qabs q ∧ Qabs q <= pow2 1022).
Proof.
  unfold normal64. intros [H|H]%orb_true_iff.
  - left. by apply Qeq_bool_iff.
  - right. apply andb_true_iff in H as [H1 H2].
    by rewrite !Qle_bool_iff in *.
Qed.

(** Rounding to a double between [2^-1022] and [2^1023] in magnitude. *)
Lemma round64_rel q :
  pow2 (-1022) <= Qabs q -> Qabs q <= pow2 1023 ->
  ∃ r, round binary64 q = Fin r ∧ Qabs (r - q) <= pow2 (-53) * Qabs q.
Proof. intros Hlo Hhi. by apply (round_rel binary64). Qed.

(** One coordinate through a scaling by [f] and a scaling by the double
    nearest to [1 / f]. *)
Lemma coord_round_trip f x :
  0 < f -> normal64 (1 / f) = true ->
  normal64 x = true -> normal64 (f * x) = true ->
  ∃ r p,
    round binary64 (1 / f) = Fin r ∧
    round binary64 (f * x) = Fin p ∧
    ∀ p', p' == p ->
      ∃ s, round binary64 (r * p') = Fin s ∧
           Qabs (s - x) <= pow2 (-51) * Qabs x.
Proof.
  intros Hf Hg Hx Hfx.
  assert (pow2 (-1022) <= pow2 (-1021)) as Hlo by (by apply pow2_le).
  assert (pow2 1022 <= pow2 1023) as Hhi by (by apply pow2_le).
  assert (0 < 1 / f) as Hgpos by (apply Qlt_shift_div_l; lra).
  apply normal64_spec in Hg as [Hg|[Hg1 Hg2]]; [lra|].
  destruct (round64_rel (1 / f)) as (r & Hr & Er); [lra|lra|].
  rewrite (Qabs_pos (1 / f)) in Er by lra.
  exists r.
  apply normal64_spec in Hx as [Hx|[Hx1 Hx2]].
  { exists 0. split_and!; [done|apply round_zero; rewrite Hx; ring|].
    intros p' Hp'. exists 0. split.
    - apply round_zero. rewrite Hp'. ring.
    - rewrite Hx. done. }
  assert (¬ f * x == 0) as Hne.
  { intros H0. apply Qmult_integral in H0 as [H0|H0]; [lra|].
    rewrite H0 in Hx1. pose proof (pow2_pos (-1021)).
    change (Qabs 0) with 0 in Hx1. lra. }
  apply normal64_spec in Hfx as [Hfx|[Hfx1 Hfx2]]; [done|].
  destruct (round64_rel (f * x)) as (p & Hp & Ep); [lra|lra|].
  rewrite Qabs_Qmult, (Qabs_pos f) in Ep by lra.
  exists p. split_and!; [done|done|].
  intros p' Hp'.
  set (u := pow2 (-53)) in *.
  assert (0 <= u) as Hu by (apply Qlt_le_weak, pow2_pos).
  pose proof (product_error u f x r p Hu Hf Er Ep) as Hrp.
  assert (2 * u + u * u <= 1 # 2) as Hc1.
  { apply Qle_bool_iff. by vm_compute. }
  assert (u * (1 + (2 * u + u * u)) + (2 * u + u * u) <= pow2 (-51)) as Hc2.
  { apply Qle_bool_iff. by vm_compute. }
  pose proof (Qabs_nonneg x) as HX.
  assert ((2 * u + u * u) * Qabs x <= (1 # 2) * Qabs x) as Hhalf.
  { apply Qmult_le_compat_r; lra. }
  pose proof (Qabs_triangle_reverse x (x - r * p)) as Hrev.
  pose proof (Qabs_triangle x (r * p - x)) as Htri.
  assert (Qabs (x - (x - r * p)) == Qabs (r * p)) as Heq1.
  { apply Qabs_wd. ring. }
  assert (Qabs (x + (r * p - x)) == Qabs (r * p)) as Heq2.
  { apply Qabs_wd. ring. }
  rewrite Heq1 in Hrev. rewrite Heq2 in Htri.
  rewrite (Qabs_Qminus x (r * p)) in Hrev.
  assert (pow2 (-1021) == 2 * pow2 (-1022)) as Hd1.
  { change (-1021)%Z with (-1022 + 1)%Z. apply pow2_succ. }
  assert (pow2 1023 == 2 * pow2 1022) as Hd2.
  { change 1023%Z with (1022 + 1)%Z. apply pow2_succ. }
  destruct (round64_rel (r * p)) as (s & Hs & Es); [lra|lra|].
  change (pow2 (-53)) with u in Es.
  exists s. split.
  { rewrite <-Hs. apply round_eq. by rewrite Hp'. }
  setoid_replace (s - x) with ((s - r * p) + (r * p - x))
    using relation Qeq by ring.
  eapply Qle_trans; [apply Qabs_triangle|].
  assert (u * Qabs (r * p) <= u * (Qabs x + (2 * u + u * u) * Qabs x))
    as Hm.
  { apply Qmult_le_l; [apply pow2_pos|lra]. }
  assert ((u * (1 + (2 * u + u * u)) + (2 * u + u * u)) * Qabs x
          <= pow2 (-51) * Qabs x) as Hfin.
  { apply Qmult_le_compat_r; lra. }
  lra.
Qed.

End Doubles.

Lemma coords64_map_points64 f (g : MultiPolygon64) :
  coords64 (map_points64 f g) = f <$> coords64 g.
Proof.
  assert (∀ rs : list (list point64),
    concat ((λ r : list point64, f <$> r) <$> rs) = f <$> concat rs) as Hc.
  { induction rs as [|r rs IH]; [done|].
    by rewrite fmap_cons, !concat_cons, fmap_app, IH. }
  unfold coords64, map_points64. induction g as [|p g IH]; [done|].
  rewrite !fmap_cons, !concat_cons, IH. cbn [exterior64 interiors64].
  by rewrite !fmap_app, Hc.
Qed.

Lemma coords64_finite (g : MultiPolygon) :
  coords64 (finite g) = (λ c : point, (Fin c.1, Fin c.2)) <$> coords g.
Proof.
  assert (∀ rs : list (list point),
    concat ((λ r : list point, (λ c : point, (Fin c.1, Fin c.2)) <$> r)
              <$> rs)
    = (λ c : point, (Fin c.1, Fin c.2)) <$> concat rs) as Hc.
  { induction rs as [|r rs IH]; [done|].
    by rewrite fmap_cons, !concat_cons, fmap_app, IH. }
  unfold coords64, coords, finite. induction g as [|p g IH]; [done|].
  rewrite !fmap_cons, !concat_cons, IH. cbn [exterior64 interiors64].
  by rewrite !fmap_app, Hc.
Qed.

(** [1 / f] on doubles, for a positive [f] whose reciprocal is in the
    normal range. *)
Lemma py_truediv_reciprocal f :
  (0 < f)%Q → normal64 (1 / f) = true →
  ∃ r, round binary64 (1 / f) = Fin r ∧
       py_truediv (Fin 1) (Fin f) = ([], Ok (Fin r)).
Proof.
  intros Hf Hn.
  assert (0 < 1 / f)%Q as Hpos by (apply Qlt_shift_div_l; lra).
  apply normal64_spec in Hn as [Hn|[Hlo Hhi]]; [lra|].
  destruct (round64_rel (1 / f)) as (r & Hr & _).
  { eapply Qle_trans; [|exact Hlo]. by apply pow2_le. }
  { eapply Qle_trans; [exact Hhi|]. by apply pow2_le. }
  exists r. split; [done|]. unfold py_truediv.
  destruct (Qeq_bool f 0) eqn:E.
  - apply Qeq_bool_iff in E. lra.
  - by rewrite Hr.
Qed.

(** C5, amended: in double arithmetic the round trip is not exact, and it
    fails when a product or a reciprocal leaves the range of the doubles.
    For positive factors [fx], [fy] whose reciprocals are of a magnitude
    from [2^-1021] to [2^1022], and a multipolygon whose coordinates and
    their products with the factor of their axis are zero or of such a
    magnitude: the reciprocals [1 / fx], [1 / fy] are computed without an
    exception and are finite, and scaling by [(fx, fy)] and then by the
    computed reciprocals, both about the origin, gives finite coordinates,
    each within the fraction [2^-51] of the coordinate of the
    multipolygon it came from. *)
Theorem rescale_round_trip64 (P : MultiPolygon) (fx fy : Q) :
  (0 < fx)%Q → (0 < fy)%Q →
  normal64 (1 / fx) = true → normal64 (1 / fy) = true →
  Forall (λ c : point,
            normal64 c.1 && normal64 (fx * c.1) &&
            normal64 c.2 && normal64 (fy * c.2) = true) (coords P) →
  ∃ rx ry,
    py_truediv (Fin 1) (Fin fx) = ([], Ok (Fin rx)) ∧
    py_truediv (Fin 1) (Fin fy) = ([], Ok (Fin ry)) ∧
    Forall2 (within (pow2 (-51)))
      (coords64
         (affinity_scale64
            (affinity_scale64 (finite P) (Fin fx) (Fin fy) (Fin 0, Fin 0))
            (Fin rx) (Fin ry) (Fin 0, Fin 0)))
      (coords P).
Proof.
  intros Hfx Hfy Hnx Hny Hall.
  destruct (py_truediv_reciprocal fx Hfx Hnx) as (rx & Hrx & Hdx).
  destruct (py_truediv_reciprocal fy Hfy Hny) as (ry & Hry & Hdy).
  exists rx, ry. split_and!; [done|done|].
  unfold affinity_scale64.
  rewrite !coords64_map_points64, coords64_finite, <-!list_fmap_compose.
  apply Forall2_fmap_l, Forall_Forall2_diag.
  eapply Forall_impl; [exact Hall|]. intros [x y]. cbn [fst snd compose].
  rewrite !andb_true_iff. intros [[[Hx Hxf] Hy] Hyf].
  destruct (coord_round_trip fx x Hfx Hnx Hx Hxf)
    as (rx' & px & Hrx' & Hpx & Hsx).
  destruct (coord_round_trip fy y Hfy Hny Hy Hyf)
    as (ry' & py & Hry' & Hpy & Hsy).
  rewrite Hrx in Hrx'. injection Hrx' as <-.
  rewrite Hry in Hry'. injection Hry' as <-.
  destruct (affinity_scale64_point fx fy x y px py Hpx Hpy)
    as (px' & py' & -> & Epx & Epy).
  destruct (Hsx px' Epx) as (sx & Hsx' & Ex).
  destruct (Hsy py' Epy) as (sy & Hsy' & Ey).
  destruct (affinity_scale64_point rx ry px' py' sx sy Hsx' Hsy')
    as (sx' & sy' & -> & Esx & Esy).
  unfold within. cbn [fst snd]. by rewrite Esx, Esy.
Qed.

(** In exact arithmetic the two conversions of the pipeline undo each
    other: polygons taken to annotation space by [get_polygons] come back
    to the extractor's pixel coordinates through [scale_to_mask], for the
    same image and shape. *)
Lemma scale_to_mask_get_polygons env im_id mask e cls w g :
  get_polygons env im_id mask e cls = (w, Ok g) →
  ∃ g', scale_to_mask env im_id (shape mask) g = ([], Ok g') ∧
        geom_eq g' (mask_to_polygons env mask e).
Proof.
  intros H. apply get_polygons_inv in H as (xs & ys & Hs & Hx & Hy & ->).
  unfold scale_to_mask. rewrite Hs. run_binds.
  eexists. split; [done|].
  unfold affinity_scale. rewrite map_points_map_points.
  apply map_points_id. intros [x y]. split; simpl; by field.
Qed.

(** ** The Jaccard line *)

Lemma eps_pos : (0 < eps)%Q.
Proof. reflexivity. Qed.

Lemma ratio_in_unit_interval (a b : Q) :
  (0 <= a)%Q → (a <= b)%Q → (0 <= a / (b + eps) <= 1)%Q.
Proof.
  intros Ha Hab. pose proof eps_pos.
  assert (0 < b + eps)%Q as Hpos by lra. split.
  - apply Qle_shift_div_l; [done|lra].
  - apply Qle_shift_div_r; [done|lra].
Qed.

Lemma mask_jaccard_bounds tp fp fn :
  0 ≤ tp → 0 ≤ fp → 0 ≤ fn → (0 <= mask_jaccard tp fp fn <= 1)%Q.
Proof.
  intros Htp Hfp Hfn. unfold mask_jaccard.
  apply ratio_in_unit_interval.
  - change 0%Q with (inject_Z 0). by rewrite <-Zle_Qle.
  - rewrite <-Zle_Qle. lia.
Qed.

Lemma count_where_nonneg f pred_mask true_mask :
  0 ≤ count_where f pred_mask true_mask.
Proof. unfold count_where. lia. Qed.

Lemma count_where_all_off f (pred_mask true_mask : ndarray bool) :
  f false false = false →
  Forall (Forall (λ b, b = false)) pred_mask →
  Forall (Forall (λ b, b = false)) true_mask →
  count_where f pred_mask true_mask = 0.
Proof.
  intros Hf Hp Ht. unfold count_where.
  enough (filter (λ pr : bool * bool, f pr.1 pr.2 = true)
            (concat (zip_with zip pred_mask true_mask)) = []) as -> by done.
  revert true_mask Ht.
  induction Hp as [|r pred_mask Hr _ IH]; intros [|r' true_mask] Ht;
    try done.
  apply Forall_cons in Ht as [Hr' Ht]. simpl.
  rewrite filter_app, (IH _ Ht), app_nil_r. clear IH Ht.
  revert r' Hr'. induction Hr as [|b r -> _ IH]; intros [|b' r'] Hr';
    try done.
  apply Forall_cons in Hr' as [-> Hr']. simpl.
  rewrite filter_cons_False by (simpl; by rewrite Hf). by apply IH.
Qed.

(** C2: the line [log_jaccard] logs holds, as polygon Jaccard, the area of
    the intersection of the predicted multipolygon and the parsed ground
    truth (both in annotation coordinates) over the area of their union
    plus [1e-15], and, as pixel Jaccard, [tp / (tp + fp + fn + 1e-15)] for
    the confusion counts of the predicted mask and the rasterised ground
    truth. *)
Theorem log_jaccard_reports env im_id pred_poly train_wkt mask t w :
  log_jaccard env im_id pred_poly train_wkt mask t = (w, Ok tt) →
  ∃ train_poly xs ys,
    wkt_loads env train_wkt = Some train_poly ∧
    get_scalers env im_id (shape mask) = Some (xs, ys) ∧
    let true_mask :=
      mask_for_polygons env (shape mask)
        (affinity_scale train_poly xs ys (0, 0)%Q) in
    let tp := count_where (λ p r, p && r) mask true_mask in
    let fp := count_where (λ p r, p && negb r) mask true_mask in
    let fn := count_where (λ p r, negb p && r) mask true_mask in
    w = [InfoJaccard
           (area env (intersection env pred_poly train_poly) /
            (area env (union env pred_poly train_poly)
             + (1 # 1000000000000000)))%Q
           (inject_Z tp /
            (inject_Z (tp + fp + fn) + (1 # 1000000000000000)))%Q].
Proof.
  unfold log_jaccard, scale_to_mask. intros H.
  destruct (wkt_loads env train_wkt) as [train_poly|]; [|done].
  destruct (get_scalers env im_id (shape mask)) as [[xs ys]|]; [|done].
  revert H. run_binds. intros [= <-]. by exists train_poly, xs, ys.
Qed.

(** C6: on non-negative confusion counts, and on areas where the
    intersection is non-negative and no larger than the union, the pixel
    and the polygon Jaccard lie in [0, 1]; for two masks without a pixel
    on, and for two empty multipolygons whose intersection has area 0,
    they are 0. *)
Theorem jaccard_in_unit_interval env (pred_mask true_mask : ndarray bool) t
    (pred_poly train_poly : MultiPolygon) :
  (0 <= area env (intersection env pred_poly train_poly))%Q →
  (area env (intersection env pred_poly train_poly)
     <= area env (union env pred_poly train_poly))%Q →
  (area env (intersection env [] []) == 0)%Q →
  let '(tp, fp, fn) := mask_tp_fp_fn pred_mask true_mask t in
  (0 <= mask_jaccard tp fp fn <= 1)%Q ∧
  (0 <= polygon_jaccard env pred_poly train_poly <= 1)%Q ∧
  (Forall (Forall (λ b, b = false)) pred_mask →
   Forall (Forall (λ b, b = false)) true_mask →
   (tp, fp, fn) = (0, 0, 0) ∧ (mask_jaccard tp fp fn == 0)%Q) ∧
  (polygon_jaccard env [] [] == 0)%Q.
Proof.
  intros H0 Hle Hempty. unfold mask_tp_fp_fn.
  split; [|split; [|split]].
  - apply mask_jaccard_bounds; apply count_where_nonneg.
  - unfold polygon_jaccard. by apply ratio_in_unit_interval.
  - intros Hp Ht. rewrite !count_where_all_off by done.
    split; [done|]. by vm_compute.
  - unfold polygon_jaccard. rewrite Hempty. apply Qmult_0_l.
Qed.

(** * Worked inputs

    Each statement above is run once on the small world; two further runs
    show inputs on which C1 and C9, read to the letter, do not hold. *)

Import Fixture.

Lemma get_poly_data_mask_absent_witness :
  (∅ : gmap string (list (list Q))) !! mask_name "img2" = None ∧
  get_poly_data (world table_square scalers1) "img2" ∅ 0 (1 # 2) 5 =
    ([Info "img2 empty"], Ok ("img2", "1", "MULTIPOLYGON EMPTY")) ∧
  (write_rows (world table_square scalers1) args1 ∅ ["img2"; "img1"]).1 =
    [("img2", "1", "MULTIPOLYGON EMPTY");
     ("img1", "1", "MULTIPOLYGON EMPTY")].
Proof.
  assert ((∅ : gmap string (list (list Q))) !! mask_name "img2" = None)
    as H by reflexivity.
  split; [exact H|].
  destruct (get_poly_data_mask_absent (world table_square scalers1) args1
              "img2" ∅ 0 (1 # 2) 5 ["img1"] H) as [H1 H2].
  split; [exact H1|]. rewrite H2. vm_compute. reflexivity.
Defined.

Lemma get_poly_data_emits_witness :
  (get_poly_data (world table_square scalers1) "img1" one_file 0 (1 # 2) 5).2
    = Ok ("img1", "1", "MULTIPOLYGON (((0 0, 1 0, 1 1, 0 1, 0 0)))") ∧
  (get_poly_data (world ∅ scalers1) "img1" one_file 0 (1 # 2) 5).2
    = Ok ("img1", "1",
          "MULTIPOLYGON (((0 0, 1/2 0, 1/2 1/4, 0 1/4, 0 0)))").
Proof.
  assert (one_file !! mask_name "img1" = Some saved_mask) as Hs
    by (vm_compute; reflexivity).
  split.
  - set (env := world table_square scalers1).
    assert (get_polygons env "img1" mask1 5 0 = ([], Ok pred1)) as Hp
      by (vm_compute; reflexivity).
    destruct (get_poly_data_emits env "img1" one_file 0 (1 # 2) 5
                saved_mask [] pred1 Hs Hp) as [Hgt _].
    rewrite (Hgt {[ 1 := show unit_square ]} (show unit_square)
               (log_jaccard env "img1" pred1 (show unit_square)
                  mask1 (1 # 2)).1).
    + reflexivity.
    + vm_compute. reflexivity.
    + apply (bool_decide_unpack _). vm_compute. exact I.
    + vm_compute. reflexivity.
    + vm_compute. reflexivity.
  - set (env := world ∅ scalers1).
    assert (get_polygons env "img1" mask1 5 0 = ([], Ok pred1)) as Hp
      by (vm_compute; reflexivity).
    destruct (get_poly_data_emits env "img1" one_file 0 (1 # 2) 5
                saved_mask [] pred1 Hs Hp) as [_ Hpred].
    rewrite Hpred.
    + vm_compute. reflexivity.
    + left. vm_compute. reflexivity.
Defined.

(** C1 as written fails here: the mask file of img1 exists and the table
    has an entry for img1, yet no row comes back, neither with the ground
    truth nor with the prediction: the entry has no class 2 and the worker
    raises [KeyError]. *)
Lemma get_poly_data_ground_truth_counterexample :
  one_file !! mask_name "img1" = Some saved_mask ∧
  get_wkt_data (world table_class3 scalers1) !! "img1"
    = Some {[ 3 := "MULTIPOLYGON EMPTY" ]} ∧
  get_poly_data (world table_class3 scalers1) "img1" one_file 1 (1 # 2) 5
    = ([Info "img1"], Raise (KeyError 2)) ∧
  (∀ w r,
     get_poly_data (world table_class3 scalers1) "img1" one_file 1 (1 # 2) 5
       ≠ (w, Ok r)).
Proof.
  assert (get_poly_data (world table_class3 scalers1) "img1" one_file 1
            (1 # 2) 5 = ([Info "img1"], Raise (KeyError 2))) as H
    by (vm_compute; reflexivity).
  split_and!; [vm_compute; reflexivity|vm_compute; reflexivity|exact H|].
  intros w r. rewrite H. discriminate.
Qed.

Lemma get_poly_data_missing_class_witness :
  get_poly_data (world table_class2 scalers1) "img1" one_file 0 (1 # 2) 5
    = ([Info "img1"], Raise (KeyError 1)).
Proof.
  set (env := world table_class2 scalers1).
  assert (one_file !! mask_name "img1" = Some saved_mask) as Hs
    by (vm_compute; reflexivity).
  assert (get_polygons env "img1" mask1 5 0 = ([], Ok pred1)) as Hp
    by (vm_compute; reflexivity).
  apply (get_poly_data_missing_class env "img1" one_file 0 (1 # 2) 5
           saved_mask [] pred1 {[ 2 := show unit_square ]} Hs Hp).
  - vm_compute. reflexivity.
  - apply (bool_decide_unpack _). vm_compute. exact I.
  - vm_compute. reflexivity.
Defined.

(** C9 as written fails here: the entry of img1 is non-empty and has no
    class 1, but the mask file of img1 is absent: the worker returns the
    empty-polygon row and raises nothing. *)
Lemma get_poly_data_keyerror_counterexample :
  get_wkt_data (world table_class2 scalers1) !! "img1"
    = Some {[ 2 := show unit_square ]} ∧
  ({[ 2 := show unit_square ]} : gmap Z string) ≠ ∅ ∧
  ({[ 2 := show unit_square ]} : gmap Z string) !! (0 + 1) = None ∧
  get_poly_data (world table_class2 scalers1) "img1" ∅ 0 (1 # 2) 5
    = ([Info "img1 empty"], Ok ("img1", "1", "MULTIPOLYGON EMPTY")) ∧
  (∀ w e,
     get_poly_data (world table_class2 scalers1) "img1" ∅ 0 (1 # 2) 5
       ≠ (w, Raise e)).
Proof.
  assert (get_poly_data (world table_class2 scalers1) "img1" ∅ 0 (1 # 2) 5
          = ([Info "img1 empty"], Ok ("img1", "1", "MULTIPOLYGON EMPTY")))
    as H by (vm_compute; reflexivity).
  split_and!; [vm_compute; reflexivity| |vm_compute; reflexivity|exact H|].
  - apply (bool_decide_unpack _). vm_compute. exact I.
  - intros w e. rewrite H. discriminate.
Qed.

Lemma poly_type_one_based_witness :
  ∃ w r,
    get_poly_data (world ∅ scalers1) "img1" one_file 6 (1 # 2) 5
      = (w, Ok r) ∧
    r.1.2 = "7" ∧ int_of_str r.1.2 = Some 7.
Proof.
  set (env := world ∅ scalers1).
  assert (get_poly_data env "img1" one_file 6 (1 # 2) 5 =
            ([Info "img1"],
             Ok ("img1", "7",
                 "MULTIPOLYGON (((0 0, 1/2 0, 1/2 1/4, 0 1/4, 0 0)))")))
    as H by (vm_compute; reflexivity).
  eexists _, _. split; [exact H|].
  destruct (proj1 (poly_type_one_based env args1 one_file) _ _ _ _ _ _ H)
    as (_ & H2 & H3 & _).
  split; [exact H2|exact H3].
Defined.

Lemma predict_masks_skips_existing_witness :
  one_file !! mask_name "img1" = Some saved_mask ∧
  predict_one (world ∅ scalers1) one_file "img1" =
    ([Info "Skip img1: already exists"], Ok one_file) ∧
  (predict_masks (world ∅ scalers1) ["img0"; "img1"; "img2"] one_file).1
    !! mask_name "img1" = Some saved_mask ∧
  dom (predict_masks (world ∅ scalers1) ["img0"; "img1"; "img2"] one_file).1
    = {[ "img0.mask"; "img1.mask"; "img2.mask" ]}.
Proof.
  assert (one_file !! mask_name "img1" = Some saved_mask) as Hs
    by (vm_compute; reflexivity).
  destruct (predict_masks_skips_existing (world ∅ scalers1) one_file
              "img1" saved_mask Hs) as (H1 & H2 & _).
  split_and!; [exact Hs|exact H1|apply H2|].
  apply (bool_decide_unpack _). vm_compute. exact I.
Defined.

Lemma np_gt_float16_witness :
  (Qabs (1 # 2) < 65000)%Q ∧
  round binary16 (1 # 2) = Fin (1 # 2) ∧
  np_gt [[3 # 4; 1 # 2]; [1 # 4; 2 # 4]]%Q (1 # 2)
    = [[true; false]; [false; false]] ∧
  (pixel (np_gt [[3 # 4; 1 # 2]; [1 # 4; 2 # 4]]%Q (1 # 2)) 0 0 = Some true
   ↔ (1 # 2 < 3 # 4)%Q) ∧
  pixel (np_gt [[3 # 4; 1 # 2]; [1 # 4; 2 # 4]]%Q (1 # 2)) 1 1 = Some false.
Proof.
  assert (Qabs (1 # 2) < 65000)%Q as Ht by reflexivity.
  destruct (np_gt_float16 [[3 # 4; 1 # 2]; [1 # 4; 2 # 4]]%Q (1 # 2))
    as (_ & Hfin & _).
  destruct (Hfin Ht) as (t16 & Hr & _ & Hpix).
  assert (t16 = (1 # 2)%Q) as ->.
  { vm_compute in Hr. by injection Hr as <-. }
  split_and!; [exact Ht|exact Hr|reflexivity| |].
  - apply (Hpix 0%nat 0%nat (3 # 4)%Q). reflexivity.
  - apply (Hpix 1%nat 1%nat (2 # 4)%Q); reflexivity.
Defined.

(** Values of the rounding, as [np.float16(x)] and [float(x)] give them:
    0.1 as a half float and as a double, the greatest half float 65504
    and the overflow above it, a half float below the subnormal ones, and
    a tie that goes to the even significand. *)
Lemma round_worked_values :
  round binary16 (1 # 10) = Fin (819 # 8192) ∧
  round binary64 (1 # 10)
    = Fin (3602879701896397 # 36028797018963968) ∧
  round binary16 65519 = Fin 65504 ∧
  round binary16 65520 = PInf ∧
  round binary16 (- (65520)) = NInf ∧
  round binary16 (1 # 100000000) = Fin 0 ∧
  round binary16 (2049 # 4096) = Fin (1 # 2) ∧
  round binary16 (2051 # 4096) = Fin (513 # 1024).
Proof.
  split_and!; vm_compute; reflexivity.
Qed.

(** C10 as written fails here: the threshold 0.4999 (as a double, the
    number [2251349453722511 / 2^52]) is below the saved score 0.5, yet
    the pixel is off.  The scores are half floats and the threshold is
    converted to one before the comparison; the half float nearest to
    0.4999 is 0.5.  The worker returns the same row, with the same log, as
    for the threshold 0.5. *)
Lemma np_gt_strict_counterexample :
  round binary64 (4999 # 10000)
    = Fin (2251349453722511 # 4503599627370496) ∧
  pixel saved_mask 0 1 = Some (1 # 2)%Q ∧
  (2251349453722511 # 4503599627370496 < 1 # 2)%Q ∧
  round binary16 (2251349453722511 # 4503599627370496) = Fin (1 # 2) ∧
  np_gt saved_mask (2251349453722511 # 4503599627370496)
    = [[true; false]] ∧
  pixel (np_gt saved_mask (2251349453722511 # 4503599627370496)) 0 1
    = Some false ∧
  one_file !! mask_name "img1" = Some saved_mask ∧
  get_poly_data (world ∅ scalers1) "img1" one_file 0
    (2251349453722511 # 4503599627370496) 5
  = get_poly_data (world ∅ scalers1) "img1" one_file 0 (1 # 2) 5.
Proof.
  split_and!; vm_compute; reflexivity.
Qed.


Lemma rescale_round_trip64_witness :
  ∃ rx ry,
    py_truediv (Fin 1) (Fin 49) = ([], Ok (Fin rx)) ∧
    py_truediv (Fin 1) (Fin 3) = ([], Ok (Fin ry)) ∧
    Forall2 (within (pow2 (-51)))
      (coords64
         (affinity_scale64
            (affinity_scale64 (finite unit_square) (Fin 49) (Fin 3)
               (Fin 0, Fin 0))
            (Fin rx) (Fin ry) (Fin 0, Fin 0)))
      (coords unit_square).
Proof.
  apply (rescale_round_trip64 unit_square 49 3);
    [reflexivity|reflexivity|vm_compute; reflexivity|vm_compute; reflexivity|].
  repeat constructor.
Defined.

(** The round trip of the witness is not exact: the corner [(1, 1)] of the
    unit square comes back as [(1 - 2^-53, 1)]. *)
Lemma scale_by_49_inexact :
  coords64
    (affinity_scale64
       (affinity_scale64 (finite unit_square) (Fin 49) (Fin 3)
          (Fin 0, Fin 0))
       (round binary64 (1 / 49)) (round binary64 (1 / 3)) (Fin 0, Fin 0))
  !! 2%nat
  = Some (Fin (9007199254740991 # 9007199254740992), Fin 1).
Proof. vm_compute. reflexivity. Qed.

(** C5 as written fails here: the factor [2^-1074], the least positive
    double, is positive, and its reciprocal overflows to [inf]; the
    offset [0 - 0 * inf] of the second scaling is [nan], and no
    coordinate of the unit square comes back. *)
Lemma rescale_round_trip_counterexample :
  (0 < pow2 (-1074))%Q ∧
  round binary64 (pow2 (-1074)) = Fin (pow2 (-1074)) ∧
  py_truediv (Fin 1) (Fin (pow2 (-1074))) = ([], Ok PInf) ∧
  coords unit_square = [(0, 0); (1, 0); (1, 1); (0, 1); (0, 0)]%Q ∧
  coords64
    (affinity_scale64
       (affinity_scale64 (finite unit_square)
          (Fin (pow2 (-1074))) (Fin (pow2 (-1074))) (Fin 0, Fin 0))
       PInf PInf (Fin 0, Fin 0))
  = [(NaN, NaN); (NaN, NaN); (NaN, NaN); (NaN, NaN); (NaN, NaN)].
Proof.
  split_and!; vm_compute; reflexivity.
Qed.

Lemma log_jaccard_reports_witness :
  log_jaccard (world table_square scalers1) "img1" unit_square
    (show unit_square) [[true; false]] (1 # 2)
  = ([InfoJaccard (1 / (1 + eps)) (1 / (2 + eps))], Ok tt) ∧
  ∃ train_poly,
    wkt_loads (world table_square scalers1) (show unit_square)
      = Some train_poly ∧
    mask_for_polygons (world table_square scalers1) (1, 2)%nat
      (affinity_scale train_poly 2 4 (0, 0)%Q) = [[true; true]].
Proof.
  set (env := world table_square scalers1).
  assert (log_jaccard env "img1" unit_square (show unit_square)
            [[true; false]] (1 # 2)
          = ([InfoJaccard (1 / (1 + eps)) (1 / (2 + eps))], Ok tt)) as H
    by (vm_compute; reflexivity).
  split; [exact H|].
  destruct (log_jaccard_reports _ _ _ _ _ _ _ H)
    as (train_poly & xs & ys & Hload & Hs & _).
  exists train_poly. split; [exact Hload|].
  vm_compute in Hload. injection Hload as <-.
  vm_compute. reflexivity.
Defined.

Lemma jaccard_in_unit_interval_witness :
  let env := world table_square scalers1 in
  (0 <= area env (intersection env unit_square unit_square))%Q ∧
  (area env (intersection env unit_square unit_square)
     <= area env (union env unit_square unit_square))%Q ∧
  (0 <= mask_jaccard 1 0 1 <= 1)%Q ∧
  (0 <= polygon_jaccard env unit_square unit_square <= 1)%Q ∧
  (polygon_jaccard env [] [] == 0)%Q.
Proof.
  intros env.
  assert (0 <= area env (intersection env unit_square unit_square))%Q
    as H0 by (vm_compute; discriminate).
  assert (area env (intersection env unit_square unit_square)
            <= area env (union env unit_square unit_square))%Q
    as Hle by (vm_compute; discriminate).
  assert (area env (intersection env [] []) == 0)%Q
    as He by (vm_compute; reflexivity).
  pose proof (jaccard_in_unit_interval env [[true; false]] [[true; true]]
                (1 # 2) unit_square unit_square H0 Hle He) as H.
  cbv beta iota delta [mask_tp_fp_fn] in H.
  destruct H as (Hm & Hp & _ & Hz).
  split_and!; [exact H0|exact Hle|exact (proj1 Hm)|exact (proj2 Hm)
              |exact (proj1 Hp)|exact (proj2 Hp)|exact Hz].
Defined.

(** * Further properties of the code *)

(** ** The [--only] option *)

Lemma split_on_cons sep s : ∃ piece rest, split_on sep s = piece :: rest.
Proof.
  destruct s as [|c s]; simpl; [by eexists _, _|].
  destruct (Ascii.eqb c sep); [by eexists _, _|].
  destruct (split_on sep s); by eexists _, _.
Qed.

Lemma concat_cons2 sep x y (l : list string) :
  String.concat sep (x :: y :: l) = x +:+ sep +:+ String.concat sep (y :: l).
Proof. reflexivity. Qed.

(** X1: splitting the text of [--only] at the commas loses nothing:
    joining the pieces with commas gives the text back, no piece holds a
    comma, and there is at least one piece. *)
Theorem split_on_join (s : string) :
  String.concat "," (split_on comma s) = s ∧
  Forall (λ piece, contains comma piece = false) (split_on comma s) ∧
  split_on comma s ≠ [].
Proof.
  split_and!.
  - induction s as [|c s IH]; [done|]. cbn [split_on].
    destruct (split_on_cons comma s) as (piece & rest & Hs).
    rewrite Hs in *.
    destruct (Ascii.eqb_spec c comma) as [->|Hc].
    + rewrite concat_cons2, IH. done.
    + destruct rest as [|piece' rest].
      * simpl in *. by rewrite IH.
      * rewrite concat_cons2 in *. by rewrite <-IH.
  - induction s as [|c s IH]; [by repeat constructor|]. cbn [split_on].
    destruct (Ascii.eqb c comma) eqn:Hc; [by constructor|].
    destruct (split_on comma s) as [|piece rest].
    { constructor; [simpl; by rewrite Hc|constructor]. }
    apply Forall_cons in IH as [? ?]. constructor; [|done].
    simpl. by rewrite Hc.
  - destruct (split_on_cons comma s) as (piece & rest & ->). done.
Qed.

(** X2: the first id is the text before the first comma and the rest
    is split in the same way; a text without a comma is one id.  So a
    trailing comma adds the empty text as a requested id, while an absent
    or empty option requests nothing. *)
Theorem parse_only_pieces (t u : string) :
  contains comma t = false →
  split_on comma t = [t] ∧
  split_on comma (t +:+ "," +:+ u) = t :: split_on comma u ∧
  parse_only (Some (t +:+ ",")) = [t; EmptyString] ∧
  parse_only None = [] ∧ parse_only (Some EmptyString) = [].
Proof.
  intros Ht.
  assert (split_on comma t = [t]) as H1.
  { induction t as [|c t IH]; [done|]. simpl in *.
    apply orb_false_iff in Ht as [-> Ht]. by rewrite IH. }
  assert (∀ u, split_on comma (t +:+ "," +:+ u) = t :: split_on comma u)
    as H2.
  { clear H1. intros v. induction t as [|c t IH]; [done|]. simpl in *.
    apply orb_false_iff in Ht as [-> Ht]. by rewrite IH. }
  split_and!; [done|apply H2| |done|done].
  unfold parse_only. rewrite bool_decide_eq_false_2.
  - apply (H2 EmptyString).
  - by destruct t.
Qed.

(** ** The directory of the masks *)

Lemma startswith_app p s :
  startswith p s = true → ∃ rest, s = p +:+ rest.
Proof.
  revert s. induction p as [|a p IH]; intros s; [by exists s|].
  destruct s as [|b s]; [done|]. simpl.
  intros [Hab Hp]%andb_true_iff. apply Ascii.eqb_eq in Hab as ->.
  destruct (IH s Hp) as [rest ->]. by exists rest.
Qed.

Lemma startswith_refl p : startswith p p = true.
Proof. induction p as [|a p IH]; [done|]. simpl. by rewrite Ascii.eqb_refl. Qed.

Lemma before_first_occurs suf s :
  endswith suf s = true →
  ∃ rest, s = before_first suf s +:+ suf +:+ rest.
Proof.
  induction s as [|c s IH]; intros Hend.
  - cbn [endswith] in Hend. rewrite orb_false_r in Hend.
    apply String.eqb_eq in Hend as <-. by exists EmptyString.
  - cbn [before_first].
    destruct (startswith suf (String c s)) eqn:Hst.
    { apply startswith_app in Hst as [rest ->]. by exists rest. }
    cbn [endswith] in Hend. apply orb_true_iff in Hend as [Heq|Hend].
    { apply String.eqb_eq in Heq. subst suf.
      rewrite startswith_refl in Hst. discriminate. }
    destruct (IH Hend) as [rest Hrest]. exists rest.
    change (String c s = String c (before_first suf s +:+ suf +:+ rest)).
    by rewrite <-Hrest.
Qed.

Lemma string_length_app (s1 s2 : string) :
  String.length (s1 +:+ s2) = (String.length s1 + String.length s2)%nat.
Proof. induction s1 as [|c s1 IH]; [done|]. simpl. by rewrite IH. Qed.

Lemma startswith_app_true p rest : startswith p (p +:+ rest) = true.
Proof.
  induction p as [|a p IH]; [done|]. simpl. by rewrite Ascii.eqb_refl.
Qed.

Lemma before_first_prefix sep s : ∃ rest, s = before_first sep s +:+ rest.
Proof.
  induction s as [|c s [rest IH]]; cbn [before_first].
  - exists EmptyString. by destruct (startswith sep EmptyString).
  - destruct (startswith sep (String c s)); [by eexists|].
    exists rest.
    change (String c s = String c (before_first sep s +:+ rest)).
    by rewrite <-IH.
Qed.

Lemma string_app_assoc (a b c : string) : (a +:+ b) +:+ c = a +:+ b +:+ c.
Proof.
  induction a as [|x a IH]; [done|].
  change (String x ((a +:+ b) +:+ c) = String x (a +:+ b +:+ c)).
  by rewrite IH.
Qed.

Lemma before_first_free sep s pre post :
  sep ≠ EmptyString → before_first sep s ≠ pre +:+ sep +:+ post.
Proof.
  intros Hsep. revert pre. induction s as [|c s IH]; intros pre;
    cbn [before_first].
  - destruct (startswith sep EmptyString); intros H;
      apply (f_equal String.length) in H;
      rewrite !string_length_app in H; destruct sep; simpl in *; done || lia.
  - destruct (startswith sep (String c s)) eqn:Hst.
    + intros H. apply (f_equal String.length) in H.
      rewrite !string_length_app in H. destruct sep; simpl in *; done || lia.
    + destruct pre as [|x pre]; intros H.
      * change (String c (before_first sep s) = sep +:+ post) in H.
        destruct (before_first_prefix sep s) as [rest Hrest].
        assert (String c s = String c (before_first sep s) +:+ rest) as Hs.
        { change (String c s = String c (before_first sep s +:+ rest)).
          by rewrite <-Hrest. }
        rewrite H, string_app_assoc in Hs.
        rewrite Hs, startswith_app_true in Hst. discriminate.
      * change (String c (before_first sep s)
                = String x (pre +:+ sep +:+ post)) in H.
        injection H as _ H. by apply IH in H.
Qed.

(** X17: the text of the mask directory is the part of the output name
    before its first [.csv]: the run stops on the assert unless the name
    ends in [.csv], and then the name is that text, [.csv] and possibly
    more; the text is shorter than the name and holds no [.csv] itself.
    So the outputs [run.csv] and [run.csv.bak.csv] share their masks. *)
Theorem store_of_output (output : string) :
  (endswith ".csv" output = false →
   store_of output = ([], Raise AssertionError)) ∧
  (endswith ".csv" output = true →
   ∃ dir rest, store_of output = ([], Ok dir) ∧
               output = dir +:+ ".csv" +:+ rest ∧ dir ≠ output ∧
               ∀ pre post, dir ≠ pre +:+ ".csv" +:+ post).
Proof.
  unfold store_of. split; [by intros ->|].
  intros Hend. rewrite Hend.
  destruct (before_first_occurs _ _ Hend) as [rest Hrest].
  exists (before_first ".csv" output), rest.
  split_and!; [done|done| |].
  - intros Heq. apply (f_equal String.length) in Hrest, Heq.
    rewrite !string_length_app, Heq in Hrest. simpl in Hrest. lia.
  - intros pre post. by apply before_first_free.
Qed.

(** ** Which images are visited, and in which order *)

Lemma elem_of_sorted (X : gset string) x : x ∈ sorted X ↔ x ∈ X.
Proof. unfold sorted. by rewrite merge_sort_Permutation, elem_of_elements. Qed.

Lemma elem_of_only_or_image_ids args x :
  x ∈ only_or_image_ids args ↔
  match only args with [] => x ∈ image_ids args | _ => x ∈ only args end.
Proof.
  unfold only_or_image_ids. destruct (only args) as [|y l] eqn:Ho.
  - by rewrite bool_decide_eq_true_2.
  - rewrite bool_decide_eq_false_2 by set_solver.
    by rewrite elem_of_elements, elem_of_list_to_set.
Qed.

Lemma elem_of_to_predict env args x :
  x ∈ to_predict env args ↔
  if train_only args then is_Some (get_wkt_data env !! x)
  else x ∈ only_or_image_ids args.
Proof.
  unfold to_predict, train_ids. destruct (train_only args).
  - apply elem_of_dom.
  - apply elem_of_list_to_set.
Qed.

Lemma elem_of_to_output env args x :
  x ∈ to_output env args ↔ x ∈ sorted (to_predict env args).
Proof.
  rewrite elem_of_sorted, elem_of_to_predict.
  unfold to_output, train_ids. destruct (train_only args); [|done].
  by rewrite elem_of_elements, elem_of_dom.
Qed.

(** X3: the prediction loop visits the selected ids in ascending order,
    each one once, also when [--only] or the sample submission names an id
    twice.  The selection is: every image of the ground-truth table with
    [--train-only]; otherwise the ids of [--only] when there are any;
    otherwise the ids of the class-1 rows of the sample submission.  The
    polygon loop outputs the same set of ids. *)
Theorem prediction_order env args :
  Sorted String.le (sorted (to_predict env args)) ∧
  NoDup (sorted (to_predict env args)) ∧
  (∀ x, x ∈ sorted (to_predict env args) ↔
        if train_only args then is_Some (get_wkt_data env !! x)
        else match only args with
             | [] => ∃ wkt, (x, "1", wkt) ∈ sample_submission args
             | _ => x ∈ only args
             end) ∧
  (∀ x, x ∈ to_output env args ↔ x ∈ sorted (to_predict env args)).
Proof.
  pose proof (elem_of_to_predict env args) as Hsel.
  split_and!.
  - apply Sorted_merge_sort; apply _.
  - unfold sorted. rewrite merge_sort_Permutation. apply NoDup_elements.
  - intros x. rewrite elem_of_sorted, Hsel.
    destruct (train_only args); [done|].
    rewrite elem_of_only_or_image_ids.
    destruct (only args); [|done].
    unfold image_ids. rewrite list_elem_of_fmap. split.
    + intros ([[y c] wkt] & -> & [Hc Hin]%list_elem_of_filter).
      simpl in *. subst c. by exists wkt.
    + intros [wkt Hin]. exists (x, "1", wkt). split; [done|].
      by apply list_elem_of_filter.
  - apply elem_of_to_output.
Qed.

(** ** The rows of the output *)

Lemma write_rows_ids_aux env args store ids :
  (λ r : row, r.1.1) <$> (write_rows env args store ids).1 `prefix_of` ids ∧
  ((write_rows env args store ids).2.2 = Ok tt →
   (λ r : row, r.1.1) <$> (write_rows env args store ids).1 = ids) ∧
  (∀ e, (write_rows env args store ids).2.2 = Raise e →
        (length (write_rows env args store ids).1 < length ids)%nat).
Proof.
  induction ids as [|im_id rest (IH1 & IH2 & IH3)].
  - split_and!; [done|done|done].
  - cbn [write_rows].
    destruct (get_poly_data env im_id store (hps_cls args) (threshold args)
                (epsilon args)) as [w [r|err]] eqn:Hrow.
    + apply get_poly_data_row in Hrow as (Hid & _).
      destruct (write_rows env args store rest) as [rows [w' res]].
      cbn [fst snd] in *. rewrite fmap_cons, Hid. split_and!.
      * by apply prefix_cons.
      * intros Hres. by rewrite IH2.
      * intros e Hres. specialize (IH3 e Hres). simpl. lia.
    + cbn [fst snd]. split_and!.
      * apply prefix_nil.
      * discriminate.
      * intros _ _. simpl. lia.
Qed.

(** X4: the rows the polygon loop writes are those of a front part of the
    ids, in the order of the ids, one row per id (an id listed twice gets
    two rows), each row being what the worker returned for its id; all ids
    have their row when the loop ends without an exception, and at least
    one id has none when a worker raised. *)
Theorem write_rows_ids env args store ids :
  (λ r : row, r.1.1) <$> (write_rows env args store ids).1 `prefix_of` ids ∧
  ((write_rows env args store ids).2.2 = Ok tt →
   (λ r : row, r.1.1) <$> (write_rows env args store ids).1 = ids) ∧
  (∀ e, (write_rows env args store ids).2.2 = Raise e →
        (length (write_rows env args store ids).1 < length ids)%nat) ∧
  Forall2 (λ (r : row) im_id,
             (get_poly_data env im_id store (hps_cls args) (threshold args)
                (epsilon args)).2 = Ok r)
    (write_rows env args store ids).1
    (take (length (write_rows env args store ids).1) ids).
Proof.
  destruct (write_rows_ids_aux env args store ids) as (H1 & H2 & H3).
  split_and!; [done|done|done|]. clear H1 H2 H3.
  induction ids as [|im_id rest IH]; [constructor|].
  cbn [write_rows].
  destruct (get_poly_data env im_id store (hps_cls args) (threshold args)
              (epsilon args)) as [w [r|err]] eqn:Hrow; [|constructor].
  destruct (write_rows env args store rest) as [rows [w' res]].
  cbn [fst snd length take] in *. constructor; [|done].
  by rewrite Hrow.
Qed.

(** ** What the prediction loop leaves in the directory *)

Lemma predict_one_inv env store im_id w store' :
  predict_one env store im_id = (w, Ok store') →
  (is_Some (store !! mask_name im_id) ∧ store' = store) ∨
  (store !! mask_name im_id = None ∧
   ∃ raw, load_image env im_id = Some raw ∧
     let data := preprocess_image env raw in
     let mask := (λ scores : list Q, float16 env <$> scores) <$>
                   predict_image_mask env im_id data in
     shape mask = shape data ∧ store' = <[mask_name im_id := mask]> store).
Proof.
  unfold predict_one. case_bool_decide as Hex.
  - run_binds. intros [= _ <-]. by left.
  - intros H. right. split.
    { destruct (store !! mask_name im_id) eqn:E; [|done].
      destruct Hex. by eexists. }
    apply bind_inv_Ok in H as (? & [] & ? & _ & H & _).
    apply bind_inv_Ok in H as (? & raw & ? & Hraw & H & _).
    unfold lift_option in Hraw.
    destruct (load_image env im_id) as [raw'|]; [|done].
    injection Hraw as _ ->.
    case_bool_decide as Hshape; [|done]. injection H as _ <-.
    by exists raw.
Qed.

Lemma predict_masks_new_files env ids store p m :
  (predict_masks env ids store).1 !! p = Some m →
  store !! p = Some m ∨
  (store !! p = None ∧
   ∃ im_id raw,
     im_id ∈ ids ∧ p = mask_name im_id ∧ load_image env im_id = Some raw ∧
     m = (λ scores : list Q, float16 env <$> scores) <$>
           predict_image_mask env im_id (preprocess_image env raw) ∧
     shape m = shape (preprocess_image env raw)).
Proof.
  revert store. induction ids as [|im_id rest IH]; intros store;
    [by left|].
  cbn [predict_masks].
  destruct (predict_one env store im_id) as [w [store'|err]] eqn:Hone;
    [|by left].
  specialize (IH store').
  destruct (predict_masks env rest store') as [final [w' r]].
  cbn [fst] in *. intros Hp. specialize (IH Hp).
  apply predict_one_inv in Hone
    as [[_ ->]|(Hnone & raw & Hraw & Hshape & ->)].
  - destruct IH as [?|(? & id & raw & ? & ?)]; [by left|right].
    split; [done|]. exists id, raw. split; [by right|done].
  - destruct (decide (p = mask_name im_id)) as [->|Hne].
    + rewrite lookup_insert_eq in IH.
      destruct IH as [[= <-]|[[=] _]]. right. split; [done|].
      exists im_id, raw. split; [by left|done].
    + rewrite lookup_insert_ne in IH by done.
      destruct IH as [?|(? & id & raw' & ? & ?)]; [by left|right].
      split; [done|]. exists id, raw'. split; [by right|done].
Qed.

(** X5: the prediction loop never deletes or changes a file that was in
    the directory before it; and when the loop ends without an exception,
    every other file of the directory is the mask predicted for one of the
    ids of the loop, rounded to half floats and saved under the name of
    the id, whose shape is that of the preprocessed image (the assert). *)
Theorem predict_masks_final env ids store :
  store ⊆ (predict_masks env ids store).1 ∧
  ((predict_masks env ids store).2.2 = Ok tt →
   ∀ p m, (predict_masks env ids store).1 !! p = Some m →
     store !! p = Some m ∨
     (store !! p = None ∧
      ∃ im_id raw,
        im_id ∈ ids ∧ p = mask_name im_id ∧
        load_image env im_id = Some raw ∧
        m = (λ scores : list Q, float16 env <$> scores) <$>
              predict_image_mask env im_id (preprocess_image env raw) ∧
        shape m = shape (preprocess_image env raw))).
Proof.
  split.
  - apply map_subseteq_spec. intros p saved Hp.
    by apply predict_masks_frame.
  - intros _ p m Hp. by apply predict_masks_new_files.
Qed.

(** X6: when the prediction loop ends without an exception, every id it
    was given has its mask file; running the loop again on what it left
    skips every id, raises nothing and changes nothing. *)
Theorem predict_masks_resume env ids store final w :
  predict_masks env ids store = (final, (w, Ok tt)) →
  Forall (λ im_id, is_Some (final !! mask_name im_id)) ids ∧
  (predict_masks env ids final).1 = final ∧
  (predict_masks env ids final).2.2 = Ok tt ∧
  (predict_masks env ids final).2.1 =
    (λ im_id, Info ("Skip " +:+ im_id +:+ ": already exists")) <$> ids.
Proof.
  intros H. apply predict_masks_files in H as [_ Hall].
  destruct (predict_masks_all_present env ids final Hall) as [H1 H2].
  split_and!; [done|done|done|]. clear H1 H2.
  induction Hall as [|im_id rest Hid _ IH]; [done|].
  cbn [predict_masks]. rewrite predict_one_skip by done.
  destruct (predict_masks env rest final) as [final' [w' r]].
  cbn [fst snd] in *. by rewrite IH.
Qed.

(** X7: the prediction loop stops at the first id whose turn raises: the
    ids before it were processed without an exception, the failing id had
    no mask file when its turn began, and, apart from the file of the
    failing id, the directory is what the ids before it left: no later id
    is touched. *)
Theorem predict_masks_raises env ids store e :
  (predict_masks env ids store).2.2 = Raise e →
  ∃ before im_id after reached w,
    ids = before ++ im_id :: after ∧
    predict_masks env before store = (reached, (w, Ok tt)) ∧
    reached !! mask_name im_id = None ∧
    (predict_one env reached im_id).2 = Raise e ∧
    ∀ p, p ≠ mask_name im_id →
         (predict_masks env ids store).1 !! p = reached !! p.
Proof.
  revert store. induction ids as [|im_id rest IH]; intros store; [done|].
  cbn [predict_masks].
  destruct (predict_one env store im_id) as [w [store'|err]] eqn:Hone.
  - specialize (IH store').
    destruct (predict_masks env rest store') as [final [w' r]] eqn:Hrest.
    cbn [fst snd] in *. intros Hr.
    destruct (IH Hr)
      as (before & id & after & reached & w1 & -> & Hbefore & Hnone & Hfail
          & Hsame).
    exists (im_id :: before), id, after, reached, (w ++ w1).
    split_and!; [done| |done|done|done].
    cbn [predict_masks]. by rewrite Hone, Hbefore.
  - cbn [fst snd]. intros [= ->].
    exists [], im_id, rest, store, [].
    split_and!; [done|done| |by rewrite Hone|done].
    destruct (store !! mask_name im_id) eqn:E; [|done].
    rewrite predict_one_skip in Hone by (by eexists). done.
Qed.

(** ** The whole run *)

Lemma main_unfold env args store :
  main env args store =
  let pm := predict_masks env (sorted (to_predict env args)) store in
  match pm.2.2 with
  | Raise e => (pm.1, None, (Info "Predicting masks" :: pm.2.1, Raise e))
  | Ok _ =>
      if masks_only args then
        (pm.1, None,
         (Info "Predicting masks" :: pm.2.1
            ++ [Info "Was building masks only, done."], Ok tt))
      else
        let wr := write_rows env args pm.1 (to_output env args) in
        (pm.1, Some (header args :: (csv_row <$> wr.1)),
         (Info "Predicting masks" :: pm.2.1
            ++ Info "Building polygons" :: wr.2.1, wr.2.2))
  end.
Proof.
  unfold main.
  destruct (predict_masks env (sorted (to_predict env args)) store)
    as [final [w [[]|err]]]; cbn [fst snd]; [|done].
  destruct (masks_only args); [done|].
  by destruct (write_rows env args final (to_output env args))
    as [rows [w' r']].
Qed.

(** X8: [main] opens the output csv exactly when [--masks-only] is off and
    the prediction loop ended without an exception.  The csv then starts
    with the header of the sample submission, followed by one line per id
    of a front part of the ids to output, in their order, and by one line
    for every such id when the run ends without an exception. *)
Theorem main_csv env args store :
  let pm := predict_masks env (sorted (to_predict env args)) store in
  ((main env args store).1.2 = None ↔
   masks_only args = true ∨ ∃ e, pm.2.2 = Raise e) ∧
  (∀ lines, (main env args store).1.2 = Some lines →
     ∃ rows : list row,
       lines = header args :: (csv_row <$> rows) ∧
       (λ r : row, r.1.1) <$> rows `prefix_of` to_output env args ∧
       ((main env args store).2.2 = Ok tt →
        (λ r : row, r.1.1) <$> rows = to_output env args ∧
        length lines = S (length (to_output env args)))).
Proof.
  intros pm. rewrite main_unfold. subst pm. cbv zeta.
  destruct (predict_masks env (sorted (to_predict env args)) store)
    as [final [w [[]|err]]]; cbn [fst snd].
  - destruct (masks_only args) eqn:Hm; cbn [fst snd].
    + split; [|done]. split; [by left|done].
    + split.
      { split; [done|]. intros [?|[e ?]]; done. }
      intros lines [= <-].
      destruct (write_rows_ids_aux env args final (to_output env args))
        as (H1 & H2 & _).
      eexists. split_and!; [done|done|]. intros Hok.
      split; [by apply H2|]. simpl. rewrite length_fmap. f_equal.
      rewrite <-(H2 Hok) at 2. by rewrite length_fmap.
  - split; [|done]. split; [|done]. intros _. right. by exists err.
Qed.

(** X9: in a run of [main] that reaches the polygon loop, every id to
    output has its mask file, so no worker takes the branch of the absent
    mask: each worker logs the id itself first, never the line ending in
    "empty". *)
Theorem main_outputs_have_masks env args store lines :
  (main env args store).1.2 = Some lines →
  let final := (main env args store).1.1 in
  ∀ im_id, im_id ∈ to_output env args →
    is_Some (final !! mask_name im_id) ∧
    ∃ w', (get_poly_data env im_id final (hps_cls args) (threshold args)
             (epsilon args)).1 = Info im_id :: w'.
Proof.
  intros Hcsv final im_id Hin.
  assert (is_Some (final !! mask_name im_id)) as Hfile.
  { unfold final. rewrite main_store. revert Hcsv. rewrite main_unfold.
    destruct (predict_masks env (sorted (to_predict env args)) store)
      as [fin [w [[]|err]]] eqn:Hpm; cbn [fst snd]; [|done].
    intros _. apply predict_masks_files in Hpm as [_ Hall].
    rewrite Forall_forall in Hall. apply Hall.
    by apply elem_of_to_output. }
  split; [done|]. destruct Hfile as [saved Hs].
  rewrite (get_poly_data_present _ _ _ _ _ _ _ Hs). run_binds.
  by eexists.
Qed.

Lemma predict_masks_skip_log env ids store :
  Forall (λ im_id, is_Some (store !! mask_name im_id)) ids →
  (predict_masks env ids store).2.1 =
    (λ im_id, Info ("Skip " +:+ im_id +:+ ": already exists")) <$> ids.
Proof.
  induction 1 as [|im_id rest Hid _ IH]; [done|].
  cbn [predict_masks]. rewrite predict_one_skip by done.
  destruct (predict_masks env rest store) as [final' [w' r]].
  cbn [fst snd] in *. by rewrite IH.
Qed.

(** X16: running [main] again after a run whose prediction loop ended
    without an exception predicts nothing anew: the second prediction loop
    only logs that it skips each id, and the directory of masks stays the
    same.  When the ids to output come from the sample submission (neither
    [--train-only] nor [--only]), so that they are visited in the order of
    that file, the second run also produces the same csv and ends the same
    way as the first. *)
Theorem main_rerun env args store :
  (predict_masks env (sorted (to_predict env args)) store).2.2 = Ok tt →
  let first := main env args store in
  let second := main env args first.1.1 in
  second.1.1 = first.1.1 ∧
  (predict_masks env (sorted (to_predict env args)) first.1.1).2.1 =
    (λ im_id, Info ("Skip " +:+ im_id +:+ ": already exists"))
      <$> sorted (to_predict env args) ∧
  (train_only args = false → only args = [] →
   to_output env args = image_ids args ∧
   second.1.2 = first.1.2 ∧ second.2.2 = first.2.2).
Proof.
  intros Hok first second. subst second.
  pose proof (main_store env args store) as Hst. fold first in Hst.
  destruct (predict_masks env (sorted (to_predict env args)) store)
    as [final [w r]] eqn:Hpm.
  cbn [fst snd] in Hok, Hst. subst r. rewrite Hst.
  destruct (predict_masks_rerun _ _ _ _ _ Hpm) as [H1 H2].
  split_and!.
  - by rewrite main_store.
  - apply predict_masks_skip_log.
    by apply predict_masks_files in Hpm as [_ ?].
  - intros Htrain Honly. split.
    { unfold to_output, only_or_image_ids. rewrite Htrain, Honly.
      by rewrite bool_decide_eq_true_2. }
    unfold first. rewrite (main_unfold env args final).
    rewrite (main_unfold env args store), Hpm. cbv zeta.
    rewrite H1, H2. cbn [fst snd].
    by destruct (masks_only args).
Qed.

(** ** More on the worker *)


(** X11: the polygons are extracted before the ground truth is looked at:
    when the mask file exists and [get_polygons] raises, the worker raises
    the same exception after logging the id, and returns no row, also for
    an image whose row would have been the ground truth. *)
Theorem get_poly_data_extraction_raises env im_id store cls t e saved w1 err :
  store !! mask_name im_id = Some saved →
  get_polygons env im_id (np_gt saved t) e cls = (w1, Raise err) →
  get_poly_data env im_id store cls t e = (Info im_id :: w1, Raise err).
Proof.
  intros Hs Hp. rewrite (get_poly_data_present _ _ _ _ _ _ _ Hs), Hp.
  by run_binds.
Qed.

(** X12: the ground-truth row is returned only after the Jaccard line was
    logged: when [log_jaccard] raises (a ground-truth text that does not
    parse, a scaler without metadata for the image), the worker raises the
    same exception and returns no row. *)
Theorem get_poly_data_logging_raises env im_id store cls t e saved w1 pred
    d gt w2 err :
  store !! mask_name im_id = Some saved →
  get_polygons env im_id (np_gt saved t) e cls = (w1, Ok pred) →
  get_wkt_data env !! im_id = Some d → d !! (cls + 1) = Some gt →
  log_jaccard env im_id pred gt (np_gt saved t) t = (w2, Raise err) →
  get_poly_data env im_id store cls t e =
    (Info im_id :: w1 ++ w2, Raise err).
Proof.
  intros Hs Hp Hd Hgt Hlog.
  rewrite (get_poly_data_present _ _ _ _ _ _ _ Hs), Hp.
  assert (if_true (get_wkt_data env !! im_id) = Some d) as ->.
  { apply if_true_Some. split; [done|]. intros ->.
    by rewrite lookup_empty in Hgt. }
  run_binds. rewrite Hgt. run_binds. rewrite Hlog. by run_binds.
Qed.



(** ** More on thresholding and on the pixel Jaccard *)

(** X14: raising the threshold can only turn pixels off: a pixel that is
    on at the higher threshold is on at the lower one. *)
Theorem np_gt_antitone (mask : ndarray Q) t1 t2 i j :
  (t1 <= t2)%Q →
  pixel (np_gt mask t2) i j = Some true →
  pixel (np_gt mask t1) i j = Some true.
Proof.
  intros Hle. rewrite !np_gt_pixel.
  destruct (pixel mask i j) as [a|]; [|done]. simpl.
  intros [= H2]. f_equal. revert H2. apply gt_f_antitone.
  by apply round_mono.
Qed.

(** X15: on confusion counts (non-negative numbers) the pixel Jaccard of
    the log line is zero exactly when there is no true positive, and it
    does not grow when false positives or false negatives are added. *)
Theorem mask_jaccard_zero_antitone tp fp fn fp' fn' :
  0 ≤ tp → 0 ≤ fp → 0 ≤ fn → fp ≤ fp' → fn ≤ fn' →
  ((mask_jaccard tp fp fn == 0)%Q ↔ tp = 0) ∧
  (mask_jaccard tp fp' fn' <= mask_jaccard tp fp fn)%Q.
Proof.
  intros Htp Hfp Hfn Hfp' Hfn'. pose proof eps_pos as Heps.
  assert (0 <= inject_Z tp)%Q as Htp'.
  { change 0%Q with (inject_Z 0). by rewrite <-Zle_Qle. }
  assert (inject_Z tp <= inject_Z (tp + fp + fn))%Q as Hsum.
  { rewrite <-Zle_Qle. lia. }
  assert (inject_Z (tp + fp + fn) <= inject_Z (tp + fp' + fn'))%Q as Hmore.
  { rewrite <-Zle_Qle. lia. }
  assert (0 < inject_Z (tp + fp + fn) + eps)%Q as Hden by lra.
  assert (0 < inject_Z (tp + fp' + fn') + eps)%Q as Hden' by lra.
  unfold mask_jaccard. split.
  - split.
    + intros H0. apply Qmult_integral in H0 as [H0|H0].
      * change 0%Q with (inject_Z 0) in H0.
        exact (proj1 (inject_Z_injective tp 0) H0).
      * exfalso. apply Qinv_lt_0_compat in Hden. rewrite H0 in Hden.
        by apply Qlt_irrefl in Hden.
    + intros ->. apply Qmult_0_l.
  - apply Qle_shift_div_r; [done|].
    set (J := (inject_Z tp / (inject_Z (tp + fp + fn) + eps))%Q).
    assert (0 <= J)%Q as HJ by (apply Qle_shift_div_l; [done|lra]).
    assert (J * (inject_Z (tp + fp + fn) + eps) == inject_Z tp)%Q as HJd.
    { unfold J. field. lra. }
    rewrite <-HJd, !(Qmult_comm J).
    apply Qmult_le_compat_r; [lra|done].
Qed.

(** ** Worked inputs for the further properties *)

Lemma parse_only_pieces_witness :
  contains comma "img1" = false ∧
  parse_only (Some "img1,") = ["img1"; ""] ∧
  split_on comma "img1,img2,img1" = ["img1"; "img2"; "img1"].
Proof.
  assert (contains comma "img1" = false) as H by reflexivity.
  destruct (parse_only_pieces "img1" "img2,img1" H) as (_ & H2 & H3 & _).
  split_and!; [exact H|exact H3|].
  etrans; [exact H2|reflexivity].
Defined.

Lemma predict_masks_final_witness :
  let env := world ∅ scalers1 in
  (predict_masks env ["img0"; "img1"] one_file).2.2 = Ok tt ∧
  (predict_masks env ["img0"; "img1"] one_file).1 !! "img1.mask"
    = Some saved_mask ∧
  (predict_masks env ["img0"; "img1"] one_file).1 !! "img0.mask"
    = Some [[3 # 4; 1 # 4]]%Q ∧
  one_file !! "img0.mask" = None.
Proof.
  intros env.
  assert ((predict_masks env ["img0"; "img1"] one_file).2.2 = Ok tt) as Hok
    by (vm_compute; reflexivity).
  assert ((predict_masks env ["img0"; "img1"] one_file).1 !! "img0.mask"
            = Some [[3 # 4; 1 # 4]]%Q) as H
    by (vm_compute; reflexivity).
  destruct (predict_masks_final env ["img0"; "img1"] one_file)
    as [Hsub Hnew].
  split_and!; [exact Hok| |exact H|].
  - rewrite map_subseteq_spec in Hsub. apply Hsub.
    vm_compute. reflexivity.
  - destruct (Hnew Hok _ _ H) as [H0|[Hnone _]]; [|exact Hnone].
    vm_compute in H0. discriminate.
Defined.

Lemma predict_masks_resume_witness :
  let env := world ∅ scalers1 in
  let final := (predict_masks env ["img0"; "img1"] one_file).1 in
  (predict_masks env ["img0"; "img1"] one_file).2.2 = Ok tt ∧
  (predict_masks env ["img0"; "img1"] final).1 = final ∧
  (predict_masks env ["img0"; "img1"] final).2.1 =
    [Info "Skip img0: already exists"; Info "Skip img1: already exists"].
Proof.
  intros env final.
  assert (predict_masks env ["img0"; "img1"] one_file =
            (final, ([Info "img0"; Info "Skip img1: already exists"],
                     Ok tt))) as H
    by (vm_compute; reflexivity).
  destruct (predict_masks_resume _ _ _ _ _ H) as (_ & H1 & _ & H3).
  split_and!; [by rewrite H|exact H1|exact H3].
Defined.

Lemma predict_masks_raises_witness :
  let env := world_without "img5" ∅ scalers1 in
  (predict_masks env ["img0"; "img5"; "img7"] one_file).2.2
    = Raise (PredictError "img5") ∧
  ∃ before im_id after reached,
    ["img0"; "img5"; "img7"] = before ++ im_id :: after ∧
    (predict_masks env before one_file).1 = reached ∧
    (predict_masks env before one_file).2.2 = Ok tt ∧
    (predict_one env reached im_id).2 = Raise (PredictError "img5").
Proof.
  intros env.
  assert ((predict_masks env ["img0"; "img5"; "img7"] one_file).2.2
            = Raise (PredictError "img5")) as H
    by (vm_compute; reflexivity).
  split; [exact H|].
  destruct (predict_masks_raises _ _ _ _ H)
    as (before & im_id & after & reached & w & Hids & Hbefore & Hnone
        & Hfail & Hsame).
  exists before, im_id, after, reached. rewrite Hbefore.
  split_and!; [exact Hids|reflexivity|reflexivity|exact Hfail].
Defined.

Lemma main_outputs_have_masks_witness :
  let env := world table_square scalers2 in
  (main env args1 one_file).1.2 =
    Some [["ImageId"; "ClassType"; "MultipolygonWKT"];
          ["img1"; "1"; "MULTIPOLYGON (((0 0, 1 0, 1 1, 0 1, 0 0)))"];
          ["img2"; "1";
           "MULTIPOLYGON (((0 0, 1/2 0, 1/2 1/4, 0 1/4, 0 0)))"]] ∧
  is_Some ((main env args1 one_file).1.1 !! mask_name "img2").
Proof.
  intros env.
  assert ((main env args1 one_file).1.2 =
    Some [["ImageId"; "ClassType"; "MultipolygonWKT"];
          ["img1"; "1"; "MULTIPOLYGON (((0 0, 1 0, 1 1, 0 1, 0 0)))"];
          ["img2"; "1";
           "MULTIPOLYGON (((0 0, 1/2 0, 1/2 1/4, 0 1/4, 0 0)))"]]) as H
    by (vm_compute; reflexivity).
  split; [exact H|].
  refine (proj1 (main_outputs_have_masks env args1 one_file _ H "img2" _)).
  apply (bool_decide_unpack _). vm_compute. exact I.
Defined.


Lemma get_poly_data_extraction_raises_witness :
  get_poly_data (world table_square scalers_zero) "img1" one_file 0 (1 # 2) 5
    = ([Info "img1"], Raise ZeroDivisionError).
Proof.
  apply (get_poly_data_extraction_raises (world table_square scalers_zero)
           "img1" one_file 0 (1 # 2) 5 saved_mask []);
    vm_compute; reflexivity.
Defined.

Lemma get_poly_data_logging_raises_witness :
  get_poly_data (world table_unreadable scalers1) "img1" one_file 0 (1 # 2) 5
    = ([Info "img1"], Raise (WKTReadingError "POLYGON ((0 0")).
Proof.
  apply (get_poly_data_logging_raises (world table_unreadable scalers1)
           "img1" one_file 0 (1 # 2) 5 saved_mask [] pred1
           {[ 1 := "POLYGON ((0 0" ]} "POLYGON ((0 0" []);
    vm_compute; reflexivity.
Defined.


Lemma np_gt_antitone_witness :
  (1 # 4 <= 1 # 2)%Q ∧
  pixel (np_gt saved_mask (1 # 2)) 0 0 = Some true ∧
  pixel (np_gt saved_mask (1 # 4)) 0 0 = Some true.
Proof.
  assert (1 # 4 <= 1 # 2)%Q as Hle by (vm_compute; discriminate).
  assert (pixel (np_gt saved_mask (1 # 2)) 0 0 = Some true) as H
    by reflexivity.
  split_and!; [exact Hle|exact H|].
  exact (np_gt_antitone saved_mask (1 # 4) (1 # 2) 0 0 Hle H).
Defined.

Lemma mask_jaccard_zero_antitone_witness :
  (mask_jaccard 3 2 5 <= mask_jaccard 3 1 0)%Q ∧
  (mask_jaccard 0 2 5 == 0)%Q.
Proof.
  destruct (mask_jaccard_zero_antitone 3 1 0 2 5) as [_ H];
    [lia|lia|lia|lia|lia|].
  destruct (mask_jaccard_zero_antitone 0 2 5 2 5) as [H0 _];
    [lia|lia|lia|lia|lia|].
  split; [exact H|]. apply H0. reflexivity.
Defined.

Lemma main_rerun_witness :
  let env := world table_square scalers2 in
  let first := main env args1 one_file in
  dom first.1.1 = {[ "img1.mask"; "img2.mask" ]} ∧
  (main env args1 first.1.1).1.1 = first.1.1 ∧
  (predict_masks env (sorted (to_predict env args1)) first.1.1).2.1 =
    [Info "Skip img1: already exists"; Info "Skip img2: already exists"].
Proof.
  intros env first.
  assert ((predict_masks env (sorted (to_predict env args1)) one_file).2.2
            = Ok tt) as H by (vm_compute; reflexivity).
  destruct (main_rerun env args1 one_file H) as (H1 & H2 & _).
  split_and!; [|exact H1|].
  - apply (bool_decide_unpack _). vm_compute. exact I.
  - etrans; [exact H2|]. vm_compute. reflexivity.
Defined.

Lemma store_of_output_witness :
  endswith ".csv" "run.csv.bak.csv" = true ∧
  store_of "run.csv.bak.csv" = ([], Ok "run") ∧
  store_of "run.csv" = ([], Ok "run") ∧
  store_of "run.txt" = ([], Raise AssertionError).
Proof.
  destruct (store_of_output "run.txt") as (Hno & _).
  split_and!; [reflexivity|reflexivity|reflexivity|].
  apply Hno. reflexivity.
Defined.
